(** * CODY: the Legion HPCG solver core, embedded and verified

    A shallow embedding of the partitioning code ([LegionArrays.hpp]),
    the physical item constructor ([LegionItems.hpp], [LegionStuff.hpp]),
    the residual kernel ([ComputeResidual.hpp]), the symmetric
    Gauss-Seidel smoother ([comp-symgs.h]) and the CG driver ([CG.hpp]).

    Integers are [Z] with the conversions between [int64_t] and [size_t]
    written out.  The C++ [floatType]/[double] is an interface, [Scalar]:
    its instance [float_Scalar] is IEEE binary64 (the kernel's primitive
    floats), on which the code is run at concrete inputs, and [R_Scalar]
    is exact real arithmetic, where the algebraic laws hold. *)

From Stdlib Require Import ZArith List Bool Lia Floats Reals Lra Ring.
Import ListNotations.

Local Open Scope Z_scope.

(* ================================================================= *)
(** ** Machine integers *)

Module Int.

Definition two64 : Z := 2 ^ 64.
Definition two63 : Z := 2 ^ 63.

(** Conversion to [size_t] (64-bit unsigned): reduction modulo 2^64. *)
Definition to_size_t (z : Z) : Z := z mod two64.

(** Conversion to [int64_t] / Legion's [coord_t]: two's complement. *)
Definition to_int64 (z : Z) : Z := (z + two63) mod two64 - two63.

End Int.

(* ================================================================= *)
(** ** Legion rectangles (one dimension) *)

(** [Rect<1>]: inclusive bounds [lo .. hi] of [coord_t]. *)
Record Rect1 : Type := mkRect { lo : Z; hi : Z }.

(** [Point<1>(v)] built from a [size_t]: the coordinate is a [coord_t]. *)
Definition Point1 (v : Z) : Z := Int.to_int64 v.

(** [Rect::volume()]: zero for an empty rectangle. *)
Definition volume (r : Rect1) : Z :=
  if hi r <? lo r then 0 else hi r - lo r + 1.

(** [Rect::operator==]. *)
Definition rect_eqb (a b : Rect1) : bool :=
  (lo a =? lo b) && (hi a =? hi b).

(** Membership of an index in a rectangle. *)
Definition in_rect (i : Z) (r : Rect1) : Prop := lo r <= i <= hi r.

(* ================================================================= *)
(** ** LogicalArray::partition (LegionArrays.hpp) *)

Module LogicalArray.

(** The loop of [partition(size_t nParts)]: [x0] and [x1] are [size_t]
    and slide by [inc] after each color. *)
Fixpoint even_loop (colors : nat) (inc x0 x1 : Z) : list Rect1 :=
  match colors with
  | O => []
  | S c =>
      mkRect (Point1 x0) (Point1 x1)
        :: even_loop c inc (Int.to_size_t (x0 + inc)) (Int.to_size_t (x1 + inc))
  end.

(** [partition(size_t nParts)].  [mLength] is an [int64_t] and is
    converted to [size_t] by [%] and [/]; [None] is the failed
    assertion "Uneven partitioning requested.".  The result is the
    coloring: the rectangle of color [c] at position [c]. *)
Definition partition (mLength nParts : Z) : option (list Rect1) :=
  if 0 =? (Int.to_size_t mLength) mod nParts then
    let inc := Int.to_int64 (Int.to_size_t mLength / nParts) in
    let x0 := 0 in
    let x1 := Int.to_size_t (inc - 1) in
    Some (even_loop (Z.to_nat nParts) inc x0 x1)
  else None.

(** The loop of [partition(const std::vector<local_int_t> &partLens)]:
    [x1 = x0 + partLens[color] - 1], then the window slides. *)
Fixpoint lens_loop (partLens : list Z) (x0 : Z) : list Rect1 :=
  match partLens with
  | [] => []
  | len :: rest =>
      let x1 := Int.to_size_t (x0 + len - 1) in
      mkRect (Point1 x0) (Point1 x1)
        :: lens_loop rest (Int.to_size_t (x0 + len))
  end.

(** [partition(partLens)]: no assertion, the array length is not read. *)
Definition partition_lens (partLens : list Z) : list Rect1 :=
  lens_loop partLens 0.

(** Sum of the first [c] entries of [partLens]. *)
Definition prefix_sum (partLens : list Z) (c : nat) : Z :=
  fold_right Z.add 0 (firstn c partLens).

Definition total (partLens : list Z) : Z := fold_right Z.add 0 partLens.

(** Every index of [[0, len)] lies in a rectangle of the coloring, and
    nothing else does. *)
Definition covers_exactly (rects : list Rect1) (len : Z) : Prop :=
  forall i, 0 <= i < len <-> exists r, In r rects /\ in_rect i r.

(** No index lies in the rectangles of two colors. *)
Definition pairwise_disjoint (rects : list Rect1) : Prop :=
  forall c1 c2 i, (c1 < length rects)%nat -> (c2 < length rects)%nat ->
    in_rect i (nth c1 rects (mkRect 0 (-1))) ->
    in_rect i (nth c2 rects (mkRect 0 (-1))) -> c1 = c2.

(** The rectangle of color [c] starts where that of color [c-1] ends:
    at the sum of the lengths before it. *)
Definition contiguous_from (rects : list Rect1) (partLens : list Z) : Prop :=
  length rects = length partLens /\
  forall c, (c < length partLens)%nat ->
    nth c rects (mkRect 0 (-1))
    = mkRect (prefix_sum partLens c) (prefix_sum partLens (S c) - 1).

End LogicalArray.

(* ================================================================= *)
(** ** Scalars: the interface behind [floatType] and [double] *)

(** The operations the solver uses on [floatType].  [gtb a b] is the
    C++ comparison [a > b]. *)
Class Scalar (F : Type) : Type := {
  zero : F;
  one : F;
  add : F -> F -> F;
  sub : F -> F -> F;
  mul : F -> F -> F;
  div : F -> F -> F;
  opp : F -> F;
  fsqrt : F -> F;
  fabs : F -> F;
  gtb : F -> F -> bool
}.

(** IEEE binary64, as the compiled code runs it. *)
#[export] Instance float_Scalar : Scalar float := {
  zero := 0%float;
  one := 1%float;
  add := PrimFloat.add;
  sub := PrimFloat.sub;
  mul := PrimFloat.mul;
  div := PrimFloat.div;
  opp := PrimFloat.opp;
  fsqrt := PrimFloat.sqrt;
  fabs := PrimFloat.abs;
  gtb := fun a b => PrimFloat.ltb b a
}.

(** Exact real arithmetic. *)
#[export] Instance R_Scalar : Scalar R := {
  zero := 0%R;
  one := 1%R;
  add := Rplus;
  sub := Rminus;
  mul := Rmult;
  div := Rdiv;
  opp := Ropp;
  fsqrt := sqrt;
  fabs := Rabs;
  gtb := fun a b => if Rlt_dec b a then true else false
}.

(** The ring laws of exact arithmetic. *)
Definition RingLaws (F : Type) `{Scalar F} : Prop :=
  ring_theory zero one add mul sub opp (@eq F).

(** The laws of a total order read through [>], with [fabs] never
    negative. *)
Record OrderLaws (F : Type) `{Scalar F} : Prop := {
  gtb_irrefl : forall a : F, gtb a a = false;
  gtb_asym : forall a b : F, gtb a b = true -> gtb b a = false;
  gtb_le_trans : forall a b c : F,
      gtb a b = false -> gtb b c = false -> gtb a c = false;
  gtb_antisym : forall a b : F, gtb a b = false -> gtb b a = false -> a = b;
  fabs_nonneg : forall a : F, gtb zero (fabs a) = false
}.

(** In-place store [l[i] = v]; an index past the end stores nothing. *)
Fixpoint store {A : Type} (i : nat) (v : A) (l : list A) : list A :=
  match l, i with
  | [], _ => []
  | _ :: t, O => v :: t
  | h :: t, S j => h :: store j v t
  end.

(* ================================================================= *)
(** ** Item::Item and offsetsAreDense (LegionItems.hpp, LegionStuff.hpp) *)

Module Item.

(** [Rect<DIM>]: the bounds of each dimension. *)
Record RectN : Type := mkRectN { los : list Z; his : list Z }.

(** The inner loop of [offsetsAreDense]: the first dimension [j] whose
    byte offset is the expected one. *)
Fixpoint find_dim (js : list nat) (offset : list Z) (exp_offset : Z)
  : option nat :=
  match js with
  | [] => None
  | j :: rest =>
      if nth j offset 0 =? exp_offset then Some j
      else find_dim rest offset exp_offset
  end.

(** The outer loop of [offsetsAreDense]: [rounds] iterations of [i]. *)
Fixpoint dense_loop (rounds : nat) (DIM : nat) (bounds : RectN)
  (offset : list Z) (exp_offset : Z) : bool :=
  match rounds with
  | O => true
  | S n =>
      match find_dim (seq 0 DIM) offset exp_offset with
      | Some j =>
          dense_loop n DIM bounds offset
            (exp_offset * (nth j (his bounds) 0 - nth j (los bounds) 0 + 1))
      | None => false
      end
  end.

(** [offsetsAreDense<DIM, T>(bounds, offset)], with [sizeofT = sizeof(T)]. *)
Definition offsetsAreDense (DIM : nat) (sizeofT : Z) (bounds : RectN)
  (offset : list Z) : bool :=
  dense_loop DIM DIM bounds offset sizeofT.

Definition rectN_of (r : Rect1) : RectN := mkRectN [lo r] [hi r].

(** What [raw_rect_ptr<1>(bounds, subrect, offsets)] hands back: the
    base pointer (0 is [nullptr]), the sub-rectangle the pointer is valid
    for, and the byte offset of each dimension. *)
Record RawRect : Type := mkRaw {
  raw_ptr : Z;
  raw_subrect : Rect1;
  raw_offsets : list Z
}.

Record t : Type := mkItem { mLength : Z; mData : Z }.

(** The constructor [Item(physicalReg, ctx, runtime)]: [subGridBounds]
    is the rectangle of the region's index space and [raw] the answer of
    the accessor asked for that rectangle. *)
Definition Item (sizeofT : Z) (subGridBounds : Rect1) (raw : RawRect) : t :=
  let mLength := volume subGridBounds in
  let mData := raw_ptr raw in
  let mData :=
    if (mData =? 0)
       || negb (rect_eqb (raw_subrect raw) subGridBounds)
       || negb (offsetsAreDense 1 sizeofT (rectN_of subGridBounds)
                  (raw_offsets raw))
    then 0 (* Signifies that something went south. *)
    else mData in
  mkItem mLength mData.

(** [data()]. *)
Definition data (it : t) : Z := mData it.

End Item.

(* ================================================================= *)
(** ** ComputeResidual (ComputeResidual.hpp) *)

Section ComputeResidualDefs.
Context {F : Type} `{Scalar F}.

(** The body of the kernel's loop at index [i]. *)
Definition residual_step (v1v v2v : list F) (local_residual : F) (i : nat)
  : F :=
  let diff := fabs (sub (nth i v1v zero) (nth i v2v zero)) in
  if gtb diff local_residual then diff else local_residual.

(** [ComputeResidualKernel(args, v1, v2, residual)]: the return value
    and the value stored into [residual]. *)
Definition ComputeResidualKernel (n : Z) (v1v v2v : list F) : Z * F :=
  let local_residual :=
    fold_left (residual_step v1v v2v) (seq 0 (Z.to_nat n)) zero in
  (0, local_residual).

(** The greater of a running maximum and a contribution. *)
Definition smax (acc c : F) : F := if gtb c acc then c else acc.

(** Modelled from the spec: [allReduce] over the max collective
    [dcReduceMax] (CollectiveOps.hpp is not part of the sources): every
    participant receives the contributions combined with max. *)
Definition allReduce_max (mine : F) (others : list F) : F :=
  fold_left smax others mine.

(** [ComputeResidual(n, v1, v2, residual, dcReduceMax, ctx, lrt)]: both
    branches of [LGNCG_TASKING] run the kernel on the local vectors;
    [others] are the contributions of the other participants. *)
Definition ComputeResidual (n : Z) (v1 v2 : list F) (others : list F)
  : Z * F :=
  let local_residual := snd (ComputeResidualKernel n v1 v2) in
  let residual := allReduce_max local_residual others in
  (0, residual).

(** The differences [|v1[i] - v2[i]|] for [0 <= i < n]. *)
Definition abs_diffs (n : Z) (v1 v2 : list F) : list F :=
  map (fun i => fabs (sub (nth i v1 zero) (nth i v2 zero)))
      (seq 0 (Z.to_nat n)).

(** [m] is the inf-norm of the differences [ds]: no difference exceeds
    it, it is one of them, and it is zero when there is none. *)
Definition is_inf_norm (m : F) (ds : list F) : Prop :=
  (forall d, In d ds -> gtb d m = false) /\
  (ds = [] -> m = zero) /\
  (ds <> [] -> In m ds).

(** A scalar that is not below zero. *)
Definition nonneg (d : F) : Prop := gtb zero d = false.

(** Another participant of the all-reduce, [(n, v1, v2)]: its
    differences and the residual its kernel computes. *)
Definition part_diffs (p : Z * list F * list F) : list F :=
  abs_diffs (fst (fst p)) (snd (fst p)) (snd p).

Definition part_residual (p : Z * list F * list F) : F :=
  snd (ComputeResidualKernel (fst (fst p)) (snd (fst p)) (snd p)).

End ComputeResidualDefs.

(* ================================================================= *)
(** ** symgs and symgsTask (comp-symgs.h) *)

(** The assertions of [symgs] and [symgsTask] that read the shape of
    the data. *)
Inductive assertion : Type :=
| LaunchDomainsSameSize   (* symgs: "sanity", all launch domains agree *)
| GridBoundsMultiple.     (* symgsTask: 0 == volume % nCols *)

(** A run to completion, or the abort of a failed assertion. *)
Inductive outcome (A : Type) : Type :=
| Done (a : A)
| Aborted (which : assertion).
Arguments Done {A} a.
Arguments Aborted {A} which.

Section SymgsDefs.
Context {F : Type} `{Scalar F}.

(** What one point task of the launch sees of the matrix and of the
    right-hand side: the sub-grid bounds of [vals] and the dense arrays
    behind the raw pointers [avp], [aip], [azp], [adp] and [rp]. *)
Record TaskArgs : Type := mkTaskArgs {
  vals_sgb : Rect1;     (* targs.sa.vals.sgb *)
  nCols : Z;            (* targs.sa.nCols *)
  avp : list F;         (* packed values, row-major, lNCols per row *)
  aip : list Z;         (* packed column indices, same layout *)
  azp : list Z;         (* non-zeros in row (uint8_t) *)
  adp : list F;         (* diagonal value of each row *)
  rp : list F           (* right-hand side *)
}.

(** The inner loop over the [cnnz] packed entries of row [i]:
    [sum -= cVals[j] * xp[cIndx[j]]]. *)
Definition row_subtract (t : TaskArgs) (i : nat) (xp : list F) (sum : F)
  (j : nat) : F :=
  let lNCols := Z.to_nat (nCols t) in
  let cVal := nth (i * lNCols + j) (avp t) zero in
  let curCol := nth (i * lNCols + j) (aip t) 0 in
  sub sum (mul cVal (nth (Z.to_nat curCol) xp zero)).

(** The body of both sweep loops for row [i]. *)
Definition row_update (t : TaskArgs) (i : nat) (xp : list F) : list F :=
  let cnnz := Z.to_nat (nth i (azp t) 0) in
  let curDiag := nth i (adp t) zero in
  let sum := nth i (rp t) zero in
  let sum := fold_left (row_subtract t i xp) (seq 0 cnnz) sum in
  let sum := add sum (mul (nth i xp zero) curDiag) in
  store i (div sum curDiag) xp.

(** Row updates applied in the order of [rows], each on the vector the
    previous one left. *)
Definition run_rows (t : TaskArgs) (rows : list nat) (xp : list F) : list F :=
  fold_left (fun x i => row_update t i x) rows xp.

(** The rows in the order the loop selected by [sweep] visits them:
    [if (1 == sweep)] counts [i] up from 0, the else branch counts it
    down from [lNRows - 1]. *)
Definition sweep_rows (sweep : Z) (lNRows : nat) : list nat :=
  if 1 =? sweep then seq 0 lNRows else rev (seq 0 lNRows).

(** [lNRows = myGridBounds.volume() / targs.sa.nCols]. *)
Definition lNRows (t : TaskArgs) : nat :=
  Z.to_nat (volume (vals_sgb t) / nCols t).

(** [symgsTask]. *)
Definition symgsTask (t : TaskArgs) (sweep : Z) (xp : list F)
  : outcome (list F) :=
  if 0 =? volume (vals_sgb t) mod nCols t then
    Done (run_rows t (sweep_rows sweep (lNRows t)) xp)
  else Aborted GridBoundsMultiple.

(** One index launch: a point task for every point of the launch domain,
    taken in point order, all on the whole of [x]. *)
Fixpoint index_launch (argMap : nat -> TaskArgs) (points : list nat)
  (sweep : Z) (xp : list F) : outcome (list F) :=
  match points with
  | [] => Done xp
  | pt :: rest =>
      match symgsTask (argMap pt) sweep xp with
      | Done xp' => index_launch argMap rest sweep xp'
      | Aborted a => Aborted a
      end
  end.

(** The launches of [for (int sweepi = 0; sweepi < 2; ++sweepi)]. *)
Fixpoint sweep_launches (argMap : nat -> TaskArgs) (points : list nat)
  (sweeps : list Z) (xp : list F) : outcome (list F) :=
  match sweeps with
  | [] => Done xp
  | sweepi :: rest =>
      match index_launch argMap points sweepi xp with
      | Done xp' => sweep_launches argMap points rest xp'
      | Aborted a => Aborted a
      end
  end.

(** [symgs(A, x, r, ctx, lrt)].  [volA], [volx] and [volr] are the
    volumes of the launch domains of [A.vals], [x] and [r]; the sanity
    assertion comes before anything is launched. *)
Definition symgs (volA volx volr : Z) (argMap : nat -> TaskArgs)
  (xp : list F) : outcome (list F) :=
  if (volA =? volx) && (volx =? volr) then
    sweep_launches argMap (seq 0 (Z.to_nat volA)) [0; 1] xp
  else Aborted LaunchDomainsSameSize.

(** The packed entries [(column, value)] of row [i]. *)
Definition row_entries (t : TaskArgs) (i : nat) : list (Z * F) :=
  let lNCols := Z.to_nat (nCols t) in
  map (fun j => (nth (i * lNCols + j) (aip t) 0,
                 nth (i * lNCols + j) (avp t) zero))
      (seq 0 (Z.to_nat (nth i (azp t) 0))).

(** The contribution of a packed entry to a row sum. *)
Definition entry_term (xp : list F) (e : Z * F) : F :=
  mul (snd e) (nth (Z.to_nat (fst e)) xp zero).

(** The sum of the contributions of a list of packed entries. *)
Definition entries_sum (xp : list F) (es : list (Z * F)) : F :=
  fold_right (fun e acc => add (entry_term xp e) acc) zero es.

(** The sum of [A[i][j] * x[j]] over the packed entries of row [i] whose
    column is not [i]. *)
Definition offdiag_sum (t : TaskArgs) (i : nat) (xp : list F) : F :=
  entries_sum xp
    (filter (fun e => negb (fst e =? Z.of_nat i)) (row_entries t i)).

(** The Gauss-Seidel value of row [i] on the vector [xp]:
    [(r[i] - sum_{j <> i} A[i][j] * x[j]) / A[i][i]]. *)
Definition gauss_seidel_value (t : TaskArgs) (i : nat) (xp : list F) : F :=
  div (sub (nth i (rp t) zero) (offdiag_sum t i xp)) (nth i (adp t) zero).

(** Row [i] stores its diagonal once, with the cached value [adp[i]]. *)
Definition diag_cached (t : TaskArgs) (i : nat) : Prop :=
  filter (fun e => fst e =? Z.of_nat i) (row_entries t i)
  = [(Z.of_nat i, nth i (adp t) zero)].

(** One sweep of every point task, in point order, each task visiting
    its rows in the order [rows_of] gives for its row count. *)
Definition sweep_points (argMap : nat -> TaskArgs) (points : list nat)
  (rows_of : nat -> list nat) (xp : list F) : list F :=
  fold_left
    (fun x pt => run_rows (argMap pt) (rows_of (lNRows (argMap pt))) x)
    points xp.

(** Rows [0] up to [n-1], and rows [n-1] down to [0]. *)
Definition forward (n : nat) : list nat := seq 0 n.
Definition backward (n : nat) : list nat := rev (seq 0 n).

(** The order the claim reads: a forward sweep, then a backward one. *)
Definition forward_then_backward (t : TaskArgs) (xp : list F) : list F :=
  run_rows t (rev (seq 0 (lNRows t))) (run_rows t (seq 0 (lNRows t)) xp).

End SymgsDefs.

(* ================================================================= *)
(** ** CG (CG.hpp) *)

(** What a run yields: a value, the read of an empty [Future], or a
    loop cut short by the fuel of the model. *)
Inductive result (A : Type) : Type :=
| Ok (a : A)
| EmptyFuture
| OutOfFuel.
Arguments Ok {A} a.
Arguments EmptyFuture {A}.
Arguments OutOfFuel {A}.

Definition bind {A B : Type} (m : result A) (k : A -> result B) : result B :=
  match m with
  | Ok a => k a
  | EmptyFuture => EmptyFuture
  | OutOfFuel => OutOfFuel
  end.

Notation "x <- m ;; k" := (bind m (fun x => k))
  (at level 61, m at next level, right associativity).

(** The timing locals of [CG]: [t0], the accumulators [t1] .. [t6]
    (slot [i] of [t] is [ti]; slot 0 is not used) and the number of
    readings of [mytimer()] taken so far. *)
Record Timers (F : Type) : Type := mkTimers {
  t0 : F;
  t : list F;
  clock : nat
}.
Arguments mkTimers {F}.
Arguments t0 {F}.
Arguments t {F}.
Arguments clock {F}.

(** The locals and the vectors of [CG] at the head of the loop. *)
Record CGState (F : Type) : Type := mkState {
  s_x : list F;
  s_r : list F;
  s_z : list F;
  s_p : list F;
  s_Ap : list F;
  s_normrFuture : option F;
  s_pApFuture : option F;
  s_rtzFuture : option F;
  s_oldrtzFuture : option F;
  s_alpha : F;
  s_beta : F;
  s_normr : F;
  s_niters : Z;
  s_timers : Timers F
}.
Arguments mkState {F}.
Arguments s_x {F}.
Arguments s_r {F}.
Arguments s_z {F}.
Arguments s_p {F}.
Arguments s_Ap {F}.
Arguments s_normrFuture {F}.
Arguments s_pApFuture {F}.
Arguments s_rtzFuture {F}.
Arguments s_oldrtzFuture {F}.
Arguments s_alpha {F}.
Arguments s_beta {F}.
Arguments s_normr {F}.
Arguments s_niters {F}.
Arguments s_timers {F}.

(** What [CG] returns and leaves in its out-parameters and vectors. *)
Record CGOut (F : Type) : Type := mkOut {
  ret : Z;
  out_x : list F;
  out_r : list F;
  out_z : list F;
  out_p : list F;
  out_Ap : list F;
  out_niters : Z;
  out_normr : F;
  out_normr0 : F;
  out_times : list F
}.
Arguments mkOut {F}.
Arguments ret {F}.
Arguments out_x {F}.
Arguments out_r {F}.
Arguments out_z {F}.
Arguments out_p {F}.
Arguments out_Ap {F}.
Arguments out_niters {F}.
Arguments out_normr {F}.
Arguments out_normr0 {F}.
Arguments out_times {F}.

(** The kernels [CG] calls from headers that are not among the sources
    (VectorOps.hpp, ComputeSPMV.hpp, ComputeMG.hpp,
    ComputeDotProduct.hpp), for the fixed matrix [A]: each gives the new
    content of its output vector from its inputs and the old content. *)
Record Kernels (F : Type) : Type := mkKernels {
  CopyVector : list F -> list F -> list F;      (* src, dst *)
  ComputeSPMV : list F -> list F -> list F;     (* x, y *)
  ComputeMG : list F -> list F -> list F;       (* r, z *)
  DotProduct : Z -> list F -> list F -> F;      (* n, x, y: the reduced sum *)
  (* the timer readings ComputeDotProduct takes and what it leaves in
     its [time_allreduce] argument: timer, clock, t4 *)
  DotProductTime : (nat -> F) -> nat -> F -> F * nat
}.
Arguments mkKernels {F}.
Arguments CopyVector {F}.
Arguments ComputeSPMV {F}.
Arguments ComputeMG {F}.
Arguments DotProduct {F}.
Arguments DotProductTime {F}.

Section CGDefs.
Context {F : Type} `{Scalar F}.
Variable K : Kernels F.
(** [mytimer()]: the reading number [n]. *)
Variable mytimer : nat -> F.

(** Modelled from the spec: [ComputeWAXPBY(n, alpha, x, beta, y, w)]
    (ComputeWAXPBY.hpp is not part of the sources) computes
    [w[i] = alpha*x[i] + beta*y[i]] for [i] in [[0,n)] and leaves the
    rest of [w]. *)
Definition ComputeWAXPBY (n : Z) (alpha : F) (x : list F) (beta : F)
  (y w : list F) : list F :=
  map (fun i =>
         if Z.of_nat i <? n
         then add (mul alpha (nth i x zero)) (mul beta (nth i y zero))
         else nth i w zero)
      (seq 0 (length w)).

(** Modelled from the spec: [ComputeFuture(&f, FMO_SQRT, NULL)] followed
    by [get_result] (FutureMath.hpp is not part of the sources): the
    square root of the deferred scalar. *)
Definition ComputeFuture_SQRT (f : option F) : result F :=
  match f with
  | Some v => Ok (fsqrt v)
  | None => EmptyFuture
  end.

(** Modelled from the spec: [ComputeFuture(&f, FMO_DIV, &g)] followed by
    [get_result]: the quotient of two deferred scalars. *)
Definition ComputeFuture_DIV (f g : option F) : result F :=
  match f, g with
  | Some a, Some b => Ok (div a b)
  | _, _ => EmptyFuture
  end.

(** [TICK()]: [t0 = mytimer()]. *)
Definition TICK (tm : Timers F) : Timers F :=
  mkTimers (mytimer (clock tm)) (t tm) (S (clock tm)).

(** [TOCK(ti)]: [ti += mytimer() - t0]. *)
Definition TOCK (i : nat) (tm : Timers F) : Timers F :=
  mkTimers (t0 tm)
           (store i (add (nth i (t tm) zero) (sub (mytimer (clock tm)) (t0 tm)))
                  (t tm))
           (S (clock tm)).

(** The trace [ComputeDotProduct] leaves on the timing locals: [t4] is
    passed by reference. *)
Definition dot_time (tm : Timers F) : Timers F :=
  let '(t4, clk) := DotProductTime K mytimer (clock tm) (nth 4 (t tm) zero) in
  mkTimers (t0 tm) (store 4 t4 (t tm)) clk.

Section Loop.
Variable nrow : Z.
Variable maxIter : Z.
Variable tolerance : F.
Variable doPreconditioning : bool.
Variable normr0 : F.

(** The condition of the [for] loop. *)
Definition cg_continue (k : Z) (s : CGState F) : bool :=
  (k <=? maxIter) && gtb (div (s_normr s) normr0) tolerance.

(** The [if (k == 1) ... else ...] of the loop body: the new [p],
    [rtzFuture], [oldrtzFuture], [beta] and timing locals. *)
Definition cg_direction (k : Z) (s : CGState F) (z : list F) (tm : Timers F)
  : result (list F * option F * option F * F * Timers F) :=
  if k =? 1 then
    let tm := TICK tm in (* Copy Mr to p. *)
    let p := ComputeWAXPBY nrow one z zero z (s_p s) in
    let tm := TOCK 2 tm in
    let tm := TICK tm in (* rtz = r' * z *)
    let rtzFuture := Some (DotProduct K nrow (s_r s) z) in
    let tm := dot_time tm in
    let tm := TOCK 1 tm in
    Ok (p, rtzFuture, s_oldrtzFuture s, s_beta s, tm)
  else
    let oldrtzFuture := s_rtzFuture s in
    let tm := TICK tm in (* rtz = r' * z *)
    let rtzFuture := Some (DotProduct K nrow (s_r s) z) in
    let tm := dot_time tm in
    let tm := TOCK 1 tm in
    beta <- ComputeFuture_DIV rtzFuture oldrtzFuture ;;
    let tm := TICK tm in (* p = beta * p + z *)
    let p := ComputeWAXPBY nrow one z beta (s_p s) (s_p s) in
    let tm := TOCK 2 tm in
    Ok (p, rtzFuture, oldrtzFuture, beta, tm).

(** The body of the loop at iteration [k]. *)
Definition cg_body (k : Z) (s : CGState F) : result (CGState F) :=
  let tm := TICK (s_timers s) in
  let z :=
    if doPreconditioning
    then ComputeMG K (s_r s) (s_z s)     (* Apply preconditioner. *)
    else CopyVector K (s_r s) (s_z s) in (* Copy r to z. *)
  let tm := TOCK 5 tm in
  d <- cg_direction k s z tm ;;
  let '(p, rtzFuture, oldrtzFuture, beta, tm) := d in
  let tm := TICK tm in (* Ap = A * p *)
  let Ap := ComputeSPMV K p (s_Ap s) in
  let tm := TOCK 3 tm in
  let tm := TICK tm in (* alpha = p' * Ap *)
  let pApFuture := Some (DotProduct K nrow p Ap) in
  let tm := dot_time tm in
  let tm := TOCK 1 tm in
  alpha <- ComputeFuture_DIV rtzFuture pApFuture ;;
  let tm := TICK tm in (* x = x + alpha * p *)
  let x := ComputeWAXPBY nrow one (s_x s) alpha p (s_x s) in
  (* r = r - alpha * Ap *)
  let r := ComputeWAXPBY nrow one (s_r s) (opp alpha) Ap (s_r s) in
  let tm := TOCK 2 tm in
  let tm := TICK tm in
  let normrFuture := Some (DotProduct K nrow r r) in
  let tm := dot_time tm in
  let tm := TOCK 1 tm in
  normr <- ComputeFuture_SQRT normrFuture ;;
  let niters := k in
  Ok (mkState x r z p Ap normrFuture pApFuture rtzFuture oldrtzFuture
              alpha beta normr niters tm).

(** [for (int k = 1; k <= maxIter && normr / normr0 > tolerance; k++)]:
    the value of [k] and the state when the loop is left. *)
Fixpoint cg_loop (fuel : nat) (k : Z) (s : CGState F)
  : result (Z * CGState F) :=
  if cg_continue k s then
    match fuel with
    | O => OutOfFuel
    | S fuel' => s' <- cg_body k s ;; cg_loop fuel' (k + 1) s'
    end
  else Ok (k, s).

End Loop.

(** [times[i] += v]. *)
Definition add_time (i : nat) (v : F) (times : list F) : list F :=
  store i (add (nth i times zero) v) times.

(** [CG(A, data, b, x, maxIter, tolerance, niters, normr, normr0, times,
    doPreconditioning, ctx, lrt)].  [r], [z], [p] and [Ap] are the
    vectors of [data]; [niters] and [times] are what the caller left in
    the out-parameters. *)
Definition CG (nrow : Z) (r z p Ap b x : list F) (maxIter : Z)
  (tolerance : F) (niters : Z) (times : list F) (doPreconditioning : bool)
  : result (CGOut F) :=
  (* Start timing right away. *)
  let t_begin := mytimer 0 in
  let tm := mkTimers zero [zero; zero; zero; zero; zero; zero; zero] 1 in
  let normr := zero in
  (* p is of length ncols, copy x to p for sparse MV operation *)
  let p := CopyVector K x p in
  let tm := TICK tm in (* Ap = A*p *)
  let Ap := ComputeSPMV K p Ap in
  let tm := TOCK 3 tm in
  let tm := TICK tm in (* r = b - Ax (x stored in p) *)
  let r := ComputeWAXPBY nrow one b (opp one) Ap r in
  let tm := TOCK 2 tm in
  let tm := TICK tm in
  let normrFuture := Some (DotProduct K nrow r r) in
  let tm := dot_time tm in
  let tm := TOCK 1 tm in
  normr <- ComputeFuture_SQRT normrFuture ;;
  (* Record initial residual for convergence testing. *)
  let normr0 := normr in
  let s := mkState x r z p Ap normrFuture None None None
                   zero zero normr niters tm in
  (* Start iterations. *)
  ks <- cg_loop nrow maxIter tolerance doPreconditioning normr0
          (Z.to_nat maxIter) 1 s ;;
  let s := snd ks in
  let tm := s_timers s in
  (* Store times. *)
  let times := add_time 1 (nth 1 (t tm) zero) times in
  let times := add_time 2 (nth 2 (t tm) zero) times in
  let times := add_time 3 (nth 3 (t tm) zero) times in
  let times := add_time 4 (nth 4 (t tm) zero) times in
  let times := add_time 5 (nth 5 (t tm) zero) times in
  let times := add_time 6 (nth 6 (t tm) zero) times in
  let times := add_time 0 (sub (mytimer (clock tm)) t_begin) times in
  Ok (mkOut 0 (s_x s) (s_r s) (s_z s) (s_p s) (s_Ap s)
            (s_niters s) (s_normr s) normr0 times).

End CGDefs.

(* ================================================================= *)
(** ** Statements about CG *)

Section CGClaims.
Context {F : Type} `{Scalar F}.
Variable K : Kernels F.



(** A state with its timing locals blanked. *)
Definition erase (s : CGState F) : CGState F :=
  mkState (s_x s) (s_r s) (s_z s) (s_p s) (s_Ap s)
          (s_normrFuture s) (s_pApFuture s) (s_rtzFuture s) (s_oldrtzFuture s)
          (s_alpha s) (s_beta s) (s_normr s) (s_niters s)
          (mkTimers zero [] 0).

(** Everything [CG] hands back except the timing buckets. *)
Definition numeric (o : CGOut F) : CGOut F :=
  mkOut (ret o) (out_x o) (out_r o) (out_z o) (out_p o) (out_Ap o)
        (out_niters o) (out_normr o) (out_normr0 o) [].

(** [times] with [deltas] added slot by slot. *)
Fixpoint add_all (times deltas : list F) : list F :=
  match times, deltas with
  | tv :: times', d :: deltas' => add tv d :: add_all times' deltas'
  | _, _ => []
  end.

(** Two runs of the loop end alike but for the timing locals. *)
Definition same_loop_result (a b : result (Z * CGState F)) : Prop :=
  match a, b with
  | Ok (ka, sa), Ok (kb, sb) => ka = kb /\ erase sa = erase sb
  | EmptyFuture, EmptyFuture => True
  | OutOfFuel, OutOfFuel => True
  | _, _ => False
  end.

(** Two runs of the body end alike but for the timing locals. *)
Definition same_body_result (a b : result (CGState F)) : Prop :=
  match a, b with
  | Ok sa, Ok sb => erase sa = erase sb
  | EmptyFuture, EmptyFuture => True
  | OutOfFuel, OutOfFuel => True
  | _, _ => False
  end.

(** The residual norm [CG] computes before the loop. *)
Definition initial_normr (nrow : Z) (r p Ap b x : list F) : F :=
  let p := CopyVector K x p in
  let Ap := ComputeSPMV K p Ap in
  let r := ComputeWAXPBY nrow one b (opp one) Ap r in
  fsqrt (DotProduct K nrow r r).

End CGClaims.

(** Kernels of a run on one rank with the identity for matrix and for
    preconditioner: the copy, [y = x], [z = r], the sum of products of
    the first [n] entries, and a dot product that reads the timer twice
    and adds the elapsed time to its argument. *)
Definition identity_kernels {F : Type} `{Scalar F} : Kernels F :=
  mkKernels
    (fun src dst => src)
    (fun x y => x)
    (fun r z => r)
    (fun n x y =>
       fold_left (fun acc i => add acc (mul (nth i x zero) (nth i y zero)))
                 (seq 0 (Z.to_nat n)) zero)
    (fun timer clk t4 => (add t4 (sub (timer (S clk)) (timer clk)), S (S clk))).

(** A timer that returns the number of the reading, in doubles. *)
Definition counting_timer (n : nat) : float :=
  PrimFloat.of_uint63 (Uint63.of_Z (Z.of_nat n)).

(** Another timer: twice the number of the reading plus one. *)
Definition slow_timer (n : nat) : float :=
  PrimFloat.of_uint63 (Uint63.of_Z (2 * Z.of_nat n + 1)).

(** Largest [int]. *)
Definition INT_MAX : Z := 2147483647.

(* ================================================================= *)
(** ** More of the sources *)

(** [ComputeResidualTask]: the task body returns the kernel's local
    residual on the vectors of its two regions. *)
Definition ComputeResidualTask {F : Type} `{Scalar F} (n : Z)
  (v1 v2 : list F) : F :=
  snd (ComputeResidualKernel n v1 v2).

(** The difference at index [i] is a NaN. *)
Definition nan_diff (v1 v2 : list float) (i : nat) : bool :=
  PrimFloat.is_nan (PrimFloat.sub (nth i v1 0%float) (nth i v2 0%float)).

(** The launch domain of both [partition] overloads:
    [colorBounds(Point<1>(0), Point<1>(nParts - 1))], [nParts] a
    [size_t]. *)
Definition colorBounds (nParts : Z) : Rect1 :=
  mkRect (Point1 0) (Point1 (Int.to_size_t (nParts - 1))).

(** [LogicalItem] (LegionItems.hpp): the bounds and the length. *)
Module LogicalItem.

Record t : Type := mk { mBounds : Rect1; mLength : Z }.

(** [mAllocate(name, len, ctx, lrt)]: [mLength = len], the inclusive
    upper bound [n = mLength - 1] is a [size_t], and the item rectangle
    is [Rect<1>(Point<1>::ZEROES(), Point<1>(n))]. *)
Definition mAllocate (len : Z) : t :=
  let mLength := len in
  let n := Int.to_size_t (mLength - 1) in
  mk (mkRect 0 (Point1 n)) mLength.

(** [allocate(name, ctx, lrt)]: one element. *)
Definition allocate : t := mAllocate 1.

(** [LogicalItem(lr, ctx, lrt)]: instantiated from a logical region
    whose index space has the rectangle [bounds];
    [mLength = mBounds.volume()]. *)
Definition of_region (bounds : Rect1) : t := mk bounds (volume bounds).

End LogicalItem.

(** [Item::getGlobalIdxZero]: the lower bound of the rectangle of the
    item's index space. *)
Definition getGlobalIdxZero (rect : Rect1) : Z := lo rect.

(** [Array2D] (LegionArrays.hpp): a dense array read as [mNRows] rows of
    [mNCols] elements; [mData] is what lies behind [mBasePtr]. *)
Module Array2D.

Record t (A : Type) : Type := mk {
  mNRows : Z;
  mNCols : Z;
  mData : list A
}.
Arguments mk {A}.
Arguments mNRows {A}.
Arguments mNCols {A}.
Arguments mData {A}.

(** The element index of [operator()(row, col)]:
    [(row * mNCols) + col]. *)
Definition index {A : Type} (a : t A) (row col : Z) : Z :=
  (row * mNCols a) + col.

(** The element offset of the pointer [operator()(row)] returns:
    [mBasePtr + (row * mNCols)]. *)
Definition row_offset {A : Type} (a : t A) (row : Z) : Z :=
  row * mNCols a.

(** Reading through [operator()(row, col)]. *)
Definition get {A : Type} (d : A) (a : t A) (row col : Z) : A :=
  nth (Z.to_nat (index a row col)) (mData a) d.

(** Writing through [operator()(row, col)]. *)
Definition set {A : Type} (a : t A) (row col : Z) (v : A) : t A :=
  mk (mNRows a) (mNCols a) (store (Z.to_nat (index a row col)) v (mData a)).

End Array2D.

(** [offsetMismatch] (LegionStuff.hpp). *)
Module LegionStuff.

(** [while (i-- > 0) { if ((off1++)->offset != (off2++)->offset)
    return true; } return false;] with [rounds] the iterations left. *)
Fixpoint mismatch_loop (rounds : nat) (off1 off2 : list Z) : bool :=
  match rounds with
  | O => false
  | S n =>
      if negb (hd 0 off1 =? hd 0 off2) then true
      else mismatch_loop n (tl off1) (tl off2)
  end.

(** [offsetMismatch(i, off1, off2)], [i] an [int]. *)
Definition offsetMismatch (i : Z) (off1 off2 : list Z) : bool :=
  mismatch_loop (Z.to_nat i) off1 off2.

(** Byte offsets of a dense layout with dimension 0 varying fastest:
    the first is the element size and each next one is the one before
    times the extent of its dimension. *)
Definition dense_layout (DIM : nat) (sizeofT : Z) (bounds : Item.RectN)
  (offset : list Z) : Prop :=
  ((0 < DIM)%nat -> nth 0 offset 0 = sizeofT) /\
  forall j, (S j < DIM)%nat ->
    nth (S j) offset 0
    = nth j offset 0
      * (nth j (Item.his bounds) 0 - nth j (Item.los bounds) 0 + 1).

End LegionStuff.

(** For every non-zero divisor, [d*a / d] is [a]: exact division. *)
Definition DivLaws (F : Type) `{Scalar F} : Prop :=
  forall a d : F, d <> zero -> div (mul d a) d = a.

(** Row [i] of the task's matrix holds on [xp]: the contributions of its
    packed entries sum to [r[i]]. *)
Definition row_solved {F : Type} `{Scalar F} (t : TaskArgs) (i : nat)
  (xp : list F) : Prop :=
  entries_sum xp (row_entries t i) = nth i (rp t) zero.

(** The differences that are not a NaN. *)
Definition not_nan_diffs (ds : list float) : list float :=
  filter (fun d => negb (PrimFloat.is_nan d)) ds.

Section CGFlow.
Context {F : Type} `{Scalar F}.
Variable K : Kernels F.


End CGFlow.

(** Case analysis over the signs and the comparisons of two or three
    floats in [SpecFloat] form. *)
Ltac sf_cases :=
  repeat match goal with | s : bool |- _ => destruct s end;
  simpl; try reflexivity; try discriminate.

Ltac cmp_cases :=
  repeat match goal with
    | |- context [Pos.compare_cont Eq ?a ?b] =>
        change (Pos.compare_cont Eq a b) with (Pos.compare a b) in *
    | H : context [Pos.compare_cont Eq ?a ?b] |- _ =>
        change (Pos.compare_cont Eq a b) with (Pos.compare a b) in *
    | |- context [Z.compare ?a ?b] => destruct (Z.compare_spec a b)
    | H : context [Z.compare ?a ?b] |- _ => destruct (Z.compare_spec a b)
    | |- context [Pos.compare ?a ?b] => destruct (Pos.compare_spec a b)
    | H : context [Pos.compare ?a ?b] |- _ => destruct (Pos.compare_spec a b)
    end;
  simpl in *; subst; try reflexivity; try discriminate; try lia.

(* ================================================================= *)
(** * Properties *)

(* ================================================================= *)
(** ** Integer conversions and rectangles *)

Lemma to_size_t_small z : 0 <= z < Int.two64 -> Int.to_size_t z = z.
Proof. intros Hz. unfold Int.to_size_t. now apply Z.mod_small. Qed.

Lemma to_int64_small z : - Int.two63 <= z < Int.two63 -> Int.to_int64 z = z.
Proof.
  intros Hz. unfold Int.to_int64.
  rewrite Z.mod_small; unfold Int.two63, Int.two64 in *; lia.
Qed.

Lemma to_int64_to_size_t z : Int.to_int64 (Int.to_size_t z) = Int.to_int64 z.
Proof.
  unfold Int.to_int64, Int.to_size_t.
  rewrite Zplus_mod_idemp_l. reflexivity.
Qed.

Lemma to_size_t_add_l a b :
  Int.to_size_t (Int.to_size_t a + b) = Int.to_size_t (a + b).
Proof. unfold Int.to_size_t. apply Zplus_mod_idemp_l. Qed.

Lemma rect_eqb_eq a b : rect_eqb a b = true <-> a = b.
Proof.
  destruct a as [la ha], b as [lb hb]. unfold rect_eqb; simpl.
  rewrite andb_true_iff, !Z.eqb_eq. split.
  - intros [-> ->]. reflexivity.
  - intros E. inversion E. auto.
Qed.

(* ================================================================= *)
(** ** Partitioning *)

Section PartitionFacts.
Import LogicalArray.

Lemma length_lens_loop partLens x0 :
  length (lens_loop partLens x0) = length partLens.
Proof.
  revert x0. induction partLens as [|len rest IH]; intros x0; simpl; auto.
Qed.

Lemma total_nonneg partLens : Forall (fun l => 0 <= l) partLens -> 0 <= total partLens.
Proof.
  induction 1 as [|l rest Hl _ IH]; unfold total in *; simpl; lia.
Qed.

Lemma prefix_sum_S_le partLens c :
  Forall (fun l => 0 <= l) partLens ->
  prefix_sum partLens c <= prefix_sum partLens (S c) <= total partLens.
Proof.
  intros Hnn. revert c.
  induction Hnn as [|l rest Hl Hrest IH]; intros c.
  - unfold prefix_sum, total. rewrite !firstn_nil. simpl. lia.
  - destruct c as [|c].
    + unfold prefix_sum, total. simpl.
      pose proof (total_nonneg rest Hrest) as Ht. unfold total in Ht. lia.
    + specialize (IH c). unfold prefix_sum, total in *.
      change (firstn (S (S c)) (l :: rest)) with (l :: firstn (S c) rest).
      change (firstn (S c) (l :: rest)) with (l :: firstn c rest).
      cbn [fold_right]. lia.
Qed.

Lemma prefix_sum_mono partLens c1 c2 :
  Forall (fun l => 0 <= l) partLens -> (c1 <= c2)%nat ->
  prefix_sum partLens c1 <= prefix_sum partLens c2.
Proof.
  intros Hnn Hle. induction Hle as [|c2 Hle IH].
  - lia.
  - pose proof (prefix_sum_S_le partLens c2 Hnn). lia.
Qed.

(** The rectangles the loop over [partLens] builds from the start [x0]. *)
Lemma lens_loop_nth partLens : forall x0 c,
  Forall (fun l => 0 <= l) partLens ->
  0 <= x0 -> x0 + total partLens < Int.two63 ->
  (c < length partLens)%nat ->
  nth c (lens_loop partLens x0) (mkRect 0 (-1))
  = mkRect (x0 + prefix_sum partLens c) (x0 + prefix_sum partLens (S c) - 1).
Proof.
  induction partLens as [|len rest IH]; intros x0 c Hnn Hx0 Hfit Hc.
  - simpl in Hc. lia.
  - inversion Hnn as [|? ? Hlen Hrest]; subst.
    pose proof (total_nonneg rest Hrest) as Htot.
    unfold total in Hfit, Htot. simpl in Hfit.
    assert (Hsz : Int.to_size_t (x0 + len) = x0 + len).
    { apply to_size_t_small. unfold Int.two63, Int.two64 in *. lia. }
    destruct c as [|c].
    + simpl. unfold Point1. rewrite to_int64_to_size_t.
      rewrite !to_int64_small by (unfold Int.two63 in *; lia).
      unfold prefix_sum. simpl. f_equal; lia.
    + simpl nth. rewrite Hsz.
      rewrite IH; [ | assumption | lia | unfold total; lia | simpl in Hc; lia ].
      unfold prefix_sum.
      change (firstn (S (S c)) (len :: rest)) with (len :: firstn (S c) rest).
      change (firstn (S c) (len :: rest)) with (len :: firstn c rest).
      cbn [fold_right]. f_equal; lia.
Qed.

Lemma lens_loop_covers partLens : forall x0,
  Forall (fun l => 0 <= l) partLens ->
  0 <= x0 -> x0 + total partLens < Int.two63 ->
  forall i, x0 <= i < x0 + total partLens
            <-> exists r, In r (lens_loop partLens x0) /\ in_rect i r.
Proof.
  induction partLens as [|len rest IH]; intros x0 Hnn Hx0 Hfit i.
  - unfold total. simpl. split; [lia | intros [r [[] _]]].
  - inversion Hnn as [|? ? Hlen Hrest]; subst.
    pose proof (total_nonneg rest Hrest) as Htot.
    unfold total in Hfit, Htot |- *. simpl in Hfit |- *.
    assert (Hsz : Int.to_size_t (x0 + len) = x0 + len).
    { apply to_size_t_small. unfold Int.two63, Int.two64 in *. lia. }
    rewrite Hsz.
    assert (Hlo : Point1 x0 = x0).
    { unfold Point1. apply to_int64_small. unfold Int.two63 in *. lia. }
    assert (Hhi : Point1 (Int.to_size_t (x0 + len - 1)) = x0 + len - 1).
    { unfold Point1. rewrite to_int64_to_size_t.
      apply to_int64_small. unfold Int.two63 in *. lia. }
    rewrite Hlo, Hhi.
    specialize (IH (x0 + len) Hrest ltac:(lia) ltac:(unfold total; lia) i).
    unfold total in IH.
    split.
    + intros Hi. destruct (Z_lt_dec i (x0 + len)) as [Hlt|Hge].
      * exists (mkRect x0 (x0 + len - 1)). split; [now left|].
        unfold in_rect; simpl; lia.
      * destruct (proj1 IH ltac:(lia)) as [r [Hin Hr]].
        exists r. split; [now right | assumption].
    + intros [r [[<- | Hin] Hr]].
      * unfold in_rect in Hr; simpl in Hr. lia.
      * assert (x0 + len <= i < x0 + len + fold_right Z.add 0 rest)
          by (apply IH; eauto).
        lia.
Qed.

Lemma partition_lens_facts partLens :
  Forall (fun l => 0 <= l) partLens -> total partLens < Int.two63 ->
  contiguous_from (partition_lens partLens) partLens /\
  pairwise_disjoint (partition_lens partLens) /\
  covers_exactly (partition_lens partLens) (total partLens).
Proof.
  intros Hnn Hfit. unfold partition_lens.
  assert (Hnth : forall c, (c < length partLens)%nat ->
            nth c (lens_loop partLens 0) (mkRect 0 (-1))
            = mkRect (prefix_sum partLens c) (prefix_sum partLens (S c) - 1)).
  { intros c Hc. rewrite lens_loop_nth by (auto; lia). f_equal. }
  split; [|split].
  - split; [apply length_lens_loop | exact Hnth].
  - intros c1 c2 i Hc1 Hc2. rewrite length_lens_loop in Hc1, Hc2.
    rewrite !Hnth by assumption. unfold in_rect; simpl. intros H1 H2.
    destruct (Nat.lt_trichotomy c1 c2) as [Hlt | [Heq | Hgt]]; [|assumption|].
    + pose proof (prefix_sum_mono partLens (S c1) c2 Hnn ltac:(lia)). lia.
    + pose proof (prefix_sum_mono partLens (S c2) c1 Hnn ltac:(lia)). lia.
  - intros i. pose proof (lens_loop_covers partLens 0 Hnn ltac:(lia) ltac:(lia) i).
    simpl in *. assumption.
Qed.

(** The loop of the even overload builds what the loop over lengths
    builds from [nParts] copies of [inc]. *)
Lemma even_loop_lens_loop colors inc : forall x0 x1,
  x1 = Int.to_size_t (x0 + inc - 1) ->
  even_loop colors inc x0 x1 = lens_loop (repeat inc colors) x0.
Proof.
  induction colors as [|c IH]; intros x0 x1 Hx1; simpl; [reflexivity|].
  subst x1. f_equal. apply IH.
  replace (Int.to_size_t (x0 + inc) + inc - 1)
    with (Int.to_size_t (x0 + inc) + (inc - 1)) by lia.
  rewrite !to_size_t_add_l. f_equal. lia.
Qed.

Lemma total_repeat inc n : total (repeat inc n) = Z.of_nat n * inc.
Proof.
  unfold total. induction n as [|n IH]; [reflexivity|].
  cbn [repeat fold_right]. rewrite IH. lia.
Qed.

Lemma prefix_sum_repeat inc n c :
  (c <= n)%nat -> prefix_sum (repeat inc n) c = Z.of_nat c * inc.
Proof.
  revert c. induction n as [|n IH]; intros c Hc.
  - assert (c = 0)%nat by lia. subst. reflexivity.
  - destruct c as [|c]; [reflexivity|].
    unfold prefix_sum in *. simpl repeat.
    change (firstn (S c) (inc :: repeat inc n)) with (inc :: firstn c (repeat inc n)).
    cbn [fold_right]. rewrite IH by lia. lia.
Qed.

End PartitionFacts.

Section PartitionClaims.
Import LogicalArray.

Lemma partition_even_as_lens mLength nParts :
  0 < nParts < Int.two64 -> 0 <= mLength < Int.two63 ->
  mLength mod nParts = 0 ->
  partition mLength nParts
  = Some (partition_lens (repeat (mLength / nParts) (Z.to_nat nParts))).
Proof.
  intros HnP HmL Hdiv. unfold partition.
  assert (Hsz : Int.to_size_t mLength = mLength).
  { apply to_size_t_small. unfold Int.two63, Int.two64 in *. lia. }
  rewrite Hsz, Hdiv. simpl.
  assert (Hinc : 0 <= mLength / nParts <= mLength).
  { split; [apply Z.div_pos; lia|]. apply Z.div_le_upper_bound; nia. }
  rewrite to_int64_small by (unfold Int.two63 in *; lia).
  unfold partition_lens. f_equal.
  apply even_loop_lens_loop. f_equal.
Qed.

Lemma sweep_launches_not_sanity {F : Type} `{Scalar F} (argMap : nat -> TaskArgs)
  points sweeps (xp : list F) :
  sweep_launches argMap points sweeps xp <> Aborted LaunchDomainsSameSize.
Proof.
  assert (Htask : forall t sweep (x : list F),
             symgsTask t sweep x <> Aborted LaunchDomainsSameSize).
  { intros t sweep x. unfold symgsTask.
    destruct (0 =? volume (vals_sgb t) mod nCols t); discriminate. }
  assert (Hlaunch : forall pts sweep (x : list F),
             index_launch argMap pts sweep x <> Aborted LaunchDomainsSameSize).
  { induction pts as [|pt rest IH]; intros sweep x; simpl; [discriminate|].
    destruct (symgsTask (argMap pt) sweep x) as [x'|a] eqn:E.
    - apply IH.
    - intros Habs. apply (Htask (argMap pt) sweep x). congruence. }
  revert xp. induction sweeps as [|sw rest IH]; intros xp; simpl; [discriminate|].
  destruct (index_launch argMap points sw xp) as [x'|a] eqn:E.
  - apply IH.
  - intros Habs. apply (Hlaunch points sw xp). congruence.
Qed.

(** C5.  With assertions enabled, [partition(nParts)] aborts exactly when
    [nParts] does not divide the array length (for a length that is a
    non-negative [int64_t] and a positive part count), and [symgs] aborts at
    its sanity assertion, before any launch, exactly when the launch-domain
    volumes of [A.vals], [x] and [r] are not all equal; so with an even
    split and matching volumes neither abort is taken. *)
Theorem malformed_partitioning_aborts :
  (forall mLength nParts,
      0 < nParts < Int.two64 -> 0 <= mLength < Int.two63 ->
      (partition mLength nParts = None <-> mLength mod nParts <> 0) /\
      (mLength mod nParts = 0 -> partition mLength nParts <> None)) /\
  (forall (F : Type) (SF : Scalar F) volA volx volr
          (argMap : nat -> TaskArgs) (xp : list F),
      (symgs volA volx volr argMap xp = Aborted LaunchDomainsSameSize
       <-> ~ (volA = volx /\ volx = volr)) /\
      (volA = volx /\ volx = volr ->
       symgs volA volx volr argMap xp <> Aborted LaunchDomainsSameSize)).
Proof.
  split.
  - intros mLength nParts HnP HmL.
    assert (Hsz : Int.to_size_t mLength = mLength).
    { apply to_size_t_small. unfold Int.two63, Int.two64 in *. lia. }
    assert (Hiff : partition mLength nParts = None <-> mLength mod nParts <> 0).
    { unfold partition. rewrite Hsz.
      destruct (0 =? mLength mod nParts) eqn:E.
      - apply Z.eqb_eq in E. split; [discriminate | lia].
      - apply Z.eqb_neq in E. split; [lia | reflexivity]. }
    split; [exact Hiff|]. intros Hdiv Hnone. apply Hiff in Hnone. lia.
  - intros F SF volA volx volr argMap xp.
    assert (Hiff : symgs volA volx volr argMap xp = Aborted LaunchDomainsSameSize
                   <-> ~ (volA = volx /\ volx = volr)).
    { unfold symgs.
      destruct ((volA =? volx) && (volx =? volr)) eqn:E.
      - apply andb_true_iff in E. rewrite !Z.eqb_eq in E. split.
        + intros Habs. exfalso. revert Habs. apply sweep_launches_not_sanity.
        + intros Hne. contradiction.
      - apply andb_false_iff in E. rewrite !Z.eqb_neq in E. split.
        + intros _ [H1 H2]. destruct E; contradiction.
        + reflexivity. }
    split; [exact Hiff|]. intros Heq Habs. apply Hiff in Habs. contradiction.
Qed.

(** C5, at 12 elements: 5 parts abort, 4 parts do not. *)
Lemma malformed_partitioning_aborts_witness :
  (0 < 5 < Int.two64 /\ 0 <= 12 < Int.two63) /\
  (partition 12 5 = None <-> 12 mod 5 <> 0) /\
  (12 mod 4 = 0 -> partition 12 4 <> None).
Proof.
  split; [unfold Int.two63, Int.two64; lia|].
  split.
  - apply (proj1 malformed_partitioning_aborts 12 5);
      unfold Int.two63, Int.two64; lia.
  - apply (proj1 malformed_partitioning_aborts 12 4);
      unfold Int.two63, Int.two64; lia.
Defined.

(** C6, as stated, fails for the overload taking lengths: an array of
    10 elements partitioned with lengths 3 and 3 leaves the indices 6
    to 9 in no sub-region. *)
Lemma partition_lens_short_cover :
  partition_lens [3; 3] = [mkRect 0 2; mkRect 3 5] /\
  ~ covers_exactly (partition_lens [3; 3]) 10.
Proof.
  split; [reflexivity|].
  intros Hcov. destruct (proj1 (Hcov 9) ltac:(lia)) as [r [Hin Hr]].
  assert (E : partition_lens [3; 3] = [mkRect 0 2; mkRect 3 5]) by reflexivity.
  rewrite E in Hin. unfold in_rect in Hr.
  destruct Hin as [<- | [<- | []]]; simpl in Hr; lia.
Qed.

(** C6, amended.  The even overload, for a part count dividing the
    length, gives color [c] the range starting at [c * (length/nParts)],
    and the sub-regions are contiguous, pairwise disjoint and cover
    exactly [0 .. length-1].  The overload taking non-negative lengths
    gives color [c] the range starting at the running sum of the lengths
    before it; its sub-regions are contiguous, pairwise disjoint and
    cover exactly [0 .. sum(partLens)-1]. *)
Theorem partition_blocks :
  (forall mLength nParts,
      0 < nParts < Int.two64 -> 0 <= mLength < Int.two63 ->
      mLength mod nParts = 0 ->
      exists rects,
        partition mLength nParts = Some rects /\
        length rects = Z.to_nat nParts /\
        (forall c, (c < Z.to_nat nParts)%nat ->
           nth c rects (mkRect 0 (-1))
           = mkRect (Z.of_nat c * (mLength / nParts))
                    (Z.of_nat (S c) * (mLength / nParts) - 1)) /\
        pairwise_disjoint rects /\
        covers_exactly rects mLength) /\
  (forall partLens,
      Forall (fun l => 0 <= l) partLens -> total partLens < Int.two63 ->
      contiguous_from (partition_lens partLens) partLens /\
      pairwise_disjoint (partition_lens partLens) /\
      covers_exactly (partition_lens partLens) (total partLens)).
Proof.
  split; [|exact partition_lens_facts].
  intros mLength nParts HnP HmL Hdiv.
  set (inc := mLength / nParts).
  set (n := Z.to_nat nParts).
  assert (Hinc : 0 <= inc) by (apply Z.div_pos; lia).
  assert (Hmul : mLength = Z.of_nat n * inc).
  { unfold n, inc. rewrite Z2Nat.id by lia.
    pose proof (Z.div_mod mLength nParts ltac:(lia)). lia. }
  assert (Hnn : Forall (fun l => 0 <= l) (repeat inc n)).
  { apply Forall_forall. intros l Hl. apply repeat_spec in Hl. lia. }
  assert (Htot : total (repeat inc n) = mLength)
    by (rewrite total_repeat; lia).
  destruct (partition_lens_facts (repeat inc n) Hnn ltac:(lia))
    as [[Hlen Hnth] [Hdis Hcov]].
  exists (partition_lens (repeat inc n)).
  split; [now apply partition_even_as_lens|].
  rewrite repeat_length in Hlen, Hnth.
  split; [exact Hlen|]. split; [|split].
  - intros c Hc. rewrite Hnth by exact Hc.
    rewrite !prefix_sum_repeat by lia. reflexivity.
  - exact Hdis.
  - rewrite <- Htot. exact Hcov.
Qed.

(** C6, amended, at 12 elements in 3 even parts and at the lengths
    3, 0, 5. *)
Lemma partition_blocks_witness :
  (exists rects,
      partition 12 3 = Some rects /\
      length rects = 3%nat /\
      (forall c, (c < 3)%nat ->
         nth c rects (mkRect 0 (-1))
         = mkRect (Z.of_nat c * (12 / 3)) (Z.of_nat (S c) * (12 / 3) - 1)) /\
      pairwise_disjoint rects /\
      covers_exactly rects 12) /\
  (contiguous_from (partition_lens [3; 0; 5]) [3; 0; 5] /\
   pairwise_disjoint (partition_lens [3; 0; 5]) /\
   covers_exactly (partition_lens [3; 0; 5]) (total [3; 0; 5])).
Proof.
  split.
  - apply (proj1 partition_blocks 12 3);
      [unfold Int.two64; lia | unfold Int.two63; lia | reflexivity].
  - apply (proj2 partition_blocks [3; 0; 5]).
    + repeat constructor; lia.
    + unfold Int.two63. simpl. lia.
Defined.

End PartitionClaims.

(* ================================================================= *)
(** ** The physical item *)

Lemma offsetsAreDense_1 sizeofT bounds offset :
  Item.offsetsAreDense 1 sizeofT bounds offset = (nth 0 offset 0 =? sizeofT).
Proof.
  unfold Item.offsetsAreDense. simpl.
  destruct (nth 0 offset 0 =? sizeofT); reflexivity.
Qed.

(** C10.  [data()] of a constructed item is either [nullptr] or the
    pointer the accessor returned, and it is [nullptr] exactly when the
    accessor returned [nullptr], or a sub-rectangle other than the
    requested bounds, or offsets that are not dense (for one dimension:
    an element stride other than [sizeof(TYPE)]); so a pointer that is
    not null is valid for the whole of the bounds, densely laid out. *)
Theorem item_data_valid_or_null sizeofT subGridBounds raw :
  let it := Item.Item sizeofT subGridBounds raw in
  (Item.data it = 0 <->
     Item.raw_ptr raw = 0 \/
     Item.raw_subrect raw <> subGridBounds \/
     Item.offsetsAreDense 1 sizeofT (Item.rectN_of subGridBounds)
       (Item.raw_offsets raw) = false) /\
  (Item.data it = 0 \/
   (Item.data it = Item.raw_ptr raw /\
    Item.raw_subrect raw = subGridBounds /\
    nth 0 (Item.raw_offsets raw) 0 = sizeofT)) /\
  Item.mLength it = volume subGridBounds.
Proof.
  unfold Item.Item, Item.data; simpl.
  rewrite offsetsAreDense_1.
  assert (Hrect : rect_eqb (Item.raw_subrect raw) subGridBounds = false ->
                  Item.raw_subrect raw <> subGridBounds).
  { intros Hf Heq. apply rect_eqb_eq in Heq. congruence. }
  destruct (Z.eqb_spec (Item.raw_ptr raw) 0) as [Ep|Ep];
    destruct (rect_eqb (Item.raw_subrect raw) subGridBounds) eqn:Er;
    destruct (Z.eqb_spec (nth 0 (Item.raw_offsets raw) 0) sizeofT) as [Eo|Eo];
    simpl;
    try (apply rect_eqb_eq in Er);
    try (specialize (Hrect eq_refl));
    repeat split; intros; auto;
    try (right; repeat split; assumption);
    try contradiction.
  all: repeat match goal with
         | H : _ \/ _ |- _ => destruct H
         end; try contradiction; try discriminate.
Qed.

(** A region of doubles mapped at address 4096 for the bounds [0 .. 9]:
    kept when the accessor answers for the whole rectangle with stride 8,
    dropped when it answers for [0 .. 4] only or with stride 16. *)
Example item_data_cases :
  Item.data (Item.Item 8 (mkRect 0 9) (Item.mkRaw 4096 (mkRect 0 9) [8])) = 4096
  /\ Item.data (Item.Item 8 (mkRect 0 9) (Item.mkRaw 4096 (mkRect 0 4) [8])) = 0
  /\ Item.data (Item.Item 8 (mkRect 0 9) (Item.mkRaw 4096 (mkRect 0 9) [16])) = 0.
Proof. repeat split. Qed.

(* ================================================================= *)
(** ** The residual *)

Lemma R_OrderLaws : OrderLaws R.
Proof.
  constructor; simpl; intros;
    repeat match goal with
      | H : context [Rlt_dec ?a ?b] |- _ => destruct (Rlt_dec a b)
      | |- context [Rlt_dec ?a ?b] => destruct (Rlt_dec a b)
      end;
    try reflexivity; try discriminate; try lra.
  pose proof (Rabs_pos a). lra.
Qed.

Lemma R_RingLaws : RingLaws R.
Proof. exact RTheory. Qed.

Section ResidualFacts.
Context {F : Type} `{Scalar F}.
Hypothesis OL : OrderLaws F.

Lemma fold_smax_spec (ds : list F) : forall a,
  let m := fold_left smax ds a in
  gtb a m = false /\
  (forall d, In d ds -> gtb d m = false) /\
  (m = a \/ In m ds).
Proof.
  induction ds as [|d ds IH]; intros a; simpl.
  - split; [apply (gtb_irrefl F OL)|]. split; [intros d []| now left].
  - destruct (IH (smax a d)) as [Hle [Hub Hatt]].
    assert (Ha : gtb a (smax a d) = false).
    { unfold smax. destruct (gtb d a) eqn:E.
      - now apply (gtb_asym F OL).
      - apply (gtb_irrefl F OL). }
    assert (Hd : gtb d (smax a d) = false).
    { unfold smax. destruct (gtb d a) eqn:E.
      - apply (gtb_irrefl F OL).
      - exact E. }
    split; [eapply (gtb_le_trans F OL); eassumption|].
    split.
    + intros d' [<- | Hin].
      * eapply (gtb_le_trans F OL); eassumption.
      * now apply Hub.
    + destruct Hatt as [-> | Hin]; [|now right; right].
      unfold smax. destruct (gtb d a); [right; now left | now left].
Qed.

Lemma kernel_fold n v1 v2 :
  snd (ComputeResidualKernel n v1 v2)
  = fold_left smax (abs_diffs n v1 v2) zero.
Proof.
  unfold ComputeResidualKernel, abs_diffs. cbn [snd].
  assert (Hfold : forall idx a,
            fold_left (residual_step v1 v2) idx a
            = fold_left smax
                (map (fun i => fabs (sub (nth i v1 zero) (nth i v2 zero))) idx) a).
  { induction idx as [|i idx IH]; intros a; simpl; [reflexivity|].
    rewrite IH. reflexivity. }
  apply Hfold.
Qed.

Lemma abs_diffs_nonneg n v1 v2 : Forall nonneg (abs_diffs n v1 v2).
Proof.
  unfold abs_diffs. apply Forall_forall. intros d Hd.
  apply in_map_iff in Hd. destruct Hd as [i [<- _]].
  apply (fabs_nonneg F OL).
Qed.

Lemma is_inf_norm_intro m ds :
  Forall nonneg ds ->
  (forall d, In d ds -> gtb d m = false) ->
  (m = zero \/ In m ds) ->
  (ds = [] -> m = zero) ->
  is_inf_norm m ds.
Proof.
  intros Hnn Hub Hatt Hnil. split; [exact Hub|]. split; [exact Hnil|].
  intros Hne. destruct Hatt as [-> | Hin]; [|exact Hin].
  destruct ds as [|d ds]; [contradiction|].
  assert (Hd : d = zero).
  { apply (gtb_antisym F OL).
    - apply Hub. now left.
    - inversion Hnn; assumption. }
  subst d. now left.
Qed.

Lemma kernel_is_inf_norm n v1 v2 :
  is_inf_norm (snd (ComputeResidualKernel n v1 v2)) (abs_diffs n v1 v2).
Proof.
  rewrite kernel_fold.
  destruct (fold_smax_spec (abs_diffs n v1 v2) zero) as [_ [Hub Hatt]].
  apply is_inf_norm_intro; auto using abs_diffs_nonneg.
  intros ->. reflexivity.
Qed.

Lemma global_is_inf_norm n v1 v2 (parts : list (Z * list F * list F)) :
  is_inf_norm
    (snd (ComputeResidual n v1 v2 (map part_residual parts)))
    (abs_diffs n v1 v2 ++ flat_map part_diffs parts).
Proof.
  unfold ComputeResidual. cbn [snd].
  set (local := snd (ComputeResidualKernel n v1 v2)).
  set (others := map part_residual parts).
  unfold allReduce_max.
  destruct (fold_smax_spec others local) as [Hloc [Hub Hatt]].
  set (g := fold_left smax others local) in *.
  pose proof (kernel_is_inf_norm n v1 v2) as [Lub [Lnil Latt]]. fold local in Lub, Lnil, Latt.
  assert (Hparts : forall p, In p parts ->
            is_inf_norm (part_residual p) (part_diffs p)).
  { intros p _. apply kernel_is_inf_norm. }
  apply is_inf_norm_intro.
  - apply Forall_app. split; [apply abs_diffs_nonneg|].
    apply Forall_forall. intros d Hd. apply in_flat_map in Hd.
    destruct Hd as [p [_ Hd]].
    pose proof (abs_diffs_nonneg (fst (fst p)) (snd (fst p)) (snd p)) as Hnn.
    rewrite Forall_forall in Hnn. now apply Hnn.
  - intros d Hd. apply in_app_or in Hd. destruct Hd as [Hd | Hd].
    + eapply (gtb_le_trans F OL); [apply Lub; exact Hd | exact Hloc].
    + apply in_flat_map in Hd. destruct Hd as [p [Hp Hd]].
      eapply (gtb_le_trans F OL).
      * apply (Hparts p Hp). exact Hd.
      * apply Hub. unfold others. now apply in_map.
  - destruct Hatt as [Hg | Hg].
    + rewrite Hg. destruct (abs_diffs n v1 v2) as [|d ds] eqn:E.
      * left. now apply Lnil.
      * right. apply in_or_app. left. apply Latt. discriminate.
    + unfold others in Hg. apply in_map_iff in Hg.
      destruct Hg as [p [Hpg Hp]]. rewrite <- Hpg.
      destruct (Hparts p Hp) as [_ [Pnil Patt]].
      destruct (part_diffs p) as [|d ds] eqn:E.
      * left. now apply Pnil.
      * right. apply in_or_app. right. apply in_flat_map.
        exists p. split; [exact Hp|]. rewrite E. apply Patt. discriminate.
  - intros Hnil. apply app_eq_nil in Hnil. destruct Hnil as [Hl Hf].
    destruct Hatt as [Hg | Hg].
    + rewrite Hg. now apply Lnil.
    + unfold others in Hg. apply in_map_iff in Hg.
      destruct Hg as [p [Hpg Hp]]. rewrite <- Hpg.
      apply (Hparts p Hp).
      destruct (part_diffs p) as [|d ds] eqn:E; [reflexivity|].
      exfalso.
      assert (Hin : In d (flat_map part_diffs parts)).
      { apply in_flat_map. exists p. split; [exact Hp|]. rewrite E. now left. }
      rewrite Hf in Hin. exact Hin.
Qed.

End ResidualFacts.

(** The kernel on doubles. *)
Example residual_kernel_float :
  ComputeResidualKernel 3 [1; 5; 2]%float [3; 4; 2.5]%float = (0, 2%float)
  /\ ComputeResidualKernel 0 [1]%float [3]%float = (0, 0%float).
Proof. split; reflexivity. Qed.

(* ================================================================= *)
(** ** The symmetric Gauss-Seidel smoother *)

Lemma length_store {A : Type} (i : nat) (v : A) (l : list A) :
  length (store i v l) = length l.
Proof.
  revert i. induction l as [|h l IH]; intros [|i]; simpl; auto.
Qed.

Lemma nth_store_same {A : Type} (i : nat) (v d : A) (l : list A) :
  (i < length l)%nat -> nth i (store i v l) d = v.
Proof.
  revert i. induction l as [|h l IH]; intros [|i] Hi; simpl in *;
    try lia; auto. apply IH. lia.
Qed.

Lemma nth_store_other {A : Type} (i k : nat) (v d : A) (l : list A) :
  k <> i -> nth k (store i v l) d = nth k l d.
Proof.
  revert i k. induction l as [|h l IH]; intros [|i] [|k] Hne; simpl;
    try reflexivity; try contradiction. apply IH. lia.
Qed.

Section SymgsFacts.
Context {F : Type} `{Scalar F}.

Lemma length_row_update (t : TaskArgs) i (xp : list F) :
  length (row_update t i xp) = length xp.
Proof. unfold row_update. apply length_store. Qed.

Lemma length_run_rows (t : TaskArgs) rows : forall xp : list F,
  length (run_rows t rows xp) = length xp.
Proof.
  unfold run_rows. induction rows as [|i rows IH]; intros xp; simpl.
  - reflexivity.
  - rewrite IH. apply length_row_update.
Qed.

Lemma run_rows_app (t : TaskArgs) rows1 rows2 (xp : list F) :
  run_rows t (rows1 ++ rows2) xp = run_rows t rows2 (run_rows t rows1 xp).
Proof. unfold run_rows. apply fold_left_app. Qed.

Lemma index_launch_done (argMap : nat -> TaskArgs) sweep points :
  (forall pt, In pt points ->
     volume (vals_sgb (argMap pt)) mod nCols (argMap pt) = 0) ->
  forall xp : list F,
    index_launch argMap points sweep xp
    = Done (sweep_points argMap points (sweep_rows sweep) xp).
Proof.
  unfold sweep_points.
  induction points as [|pt rest IH]; intros Hok xp; simpl; [reflexivity|].
  unfold symgsTask. rewrite (Hok pt) by now left. simpl.
  apply IH. intros q Hq. apply Hok. now right.
Qed.

End SymgsFacts.

(** C1, as stated, fails: on the matrix [[2 1] [1 2]] with right-hand
    side [1 1] and [x = 0], in doubles, [symgs] leaves [0.25 0.375], the
    result of a backward sweep followed by a forward one; a forward
    sweep followed by a backward one would leave [0.375 0.25]. *)
Lemma symgs_backward_sweep_first :
  let A := mkTaskArgs (mkRect 0 3) 2 [2; 1; 1; 2]%float [0; 1; 0; 1]
                      [2; 2] [2; 2]%float [1; 1]%float in
  symgs 1 1 1 (fun _ => A) [0; 0]%float = Done [0.25; 0.375]%float /\
  forward_then_backward A [0; 0]%float = [0.375; 0.25]%float /\
  symgsTask A 0 [0; 0]%float = Done (run_rows A [1; 0]%nat [0; 0]%float).
Proof. repeat split. Qed.

(** C1, amended.  Each call to [symgs] that passes its assertions
    performs exactly two sweeps over the local rows of every point task:
    first (sweepi = 0) a backward sweep visiting rows [n-1] down to [0],
    then (sweepi = 1) a forward sweep visiting rows [0] up to [n-1]. *)
Theorem symgs_two_sweeps (F : Type) (SF : Scalar F) (vol : Z)
  (argMap : nat -> TaskArgs) (xp : list F) :
  (forall pt, In pt (seq 0 (Z.to_nat vol)) ->
     volume (vals_sgb (argMap pt)) mod nCols (argMap pt) = 0) ->
  symgs vol vol vol argMap xp
  = Done (sweep_points argMap (seq 0 (Z.to_nat vol)) forward
            (sweep_points argMap (seq 0 (Z.to_nat vol)) backward xp)).
Proof.
  intros Hok. unfold symgs. rewrite !Z.eqb_refl. simpl.
  rewrite (index_launch_done argMap 0 _ Hok). 
  rewrite (index_launch_done argMap 1 _ Hok).
  reflexivity.
Qed.

(** C1, amended, on a one-task launch in doubles. *)
Lemma symgs_two_sweeps_witness :
  let A := mkTaskArgs (mkRect 0 3) 2 [2; 1; 1; 2]%float [0; 1; 0; 1]
                      [2; 2] [2; 2]%float [1; 1]%float in
  symgs 1 1 1 (fun _ => A) [0; 0]%float
  = Done (sweep_points (fun _ => A) (seq 0 (Z.to_nat 1)) forward
            (sweep_points (fun _ => A) (seq 0 (Z.to_nat 1)) backward
               [0; 0]%float)).
Proof.
  intros A.
  apply (symgs_two_sweeps float float_Scalar 1 (fun _ => A) [0; 0]%float).
  intros pt _. reflexivity.
Defined.

Section GaussSeidelRow.
Context {F : Type} `{Scalar F}.
Hypothesis RL : RingLaws F.

Add Ring scalar_ring : (RL : ring_theory zero one add mul sub opp (@eq F)).

Lemma row_subtract_fold (t : TaskArgs) i (xp : list F) js : forall s,
  fold_left (row_subtract t i xp) js s
  = sub s (entries_sum xp
             (map (fun j => (nth (i * Z.to_nat (nCols t) + j) (aip t) 0,
                             nth (i * Z.to_nat (nCols t) + j) (avp t) zero))
                  js)).
Proof.
  induction js as [|j js IH]; intros s; simpl.
  - unfold entries_sum. simpl. ring.
  - rewrite IH. unfold row_subtract, entries_sum, entry_term. simpl. ring.
Qed.

Lemma entries_sum_filter (xp : list F) (keep : Z * F -> bool) es :
  entries_sum xp es
  = add (entries_sum xp (filter keep es))
        (entries_sum xp (filter (fun e => negb (keep e)) es)).
Proof.
  unfold entries_sum.
  induction es as [|e es IH]; simpl.
  - ring.
  - rewrite IH. destruct (keep e); simpl; ring.
Qed.

Lemma row_update_value (t : TaskArgs) i (xp : list F) :
  (i < length xp)%nat -> diag_cached t i ->
  nth i (row_update t i xp) zero = gauss_seidel_value t i xp.
Proof.
  intros Hi Hdiag. unfold row_update.
  rewrite nth_store_same by exact Hi.
  unfold gauss_seidel_value. f_equal.
  rewrite row_subtract_fold.
  fold (row_entries t i).
  rewrite (entries_sum_filter xp (fun e => fst e =? Z.of_nat i)).
  unfold diag_cached in Hdiag. rewrite Hdiag.
  unfold offdiag_sum, entries_sum. simpl. unfold entry_term at 1. simpl.
  rewrite Nat2Z.id. ring.
Qed.

End GaussSeidelRow.

(** C4, as stated, fails in the doubles the code computes in: for the
    one-entry row [A = [1]] with [r = 2^-60] and [x = 1] the code leaves
    [((2^-60 - 1*1) + 1*1) / 1 = 0], the first subtraction rounding to
    [-1], where the formula reads [(2^-60 - 0) / 1 = 2^-60]. *)
Lemma gauss_seidel_row_rounded :
  let A := mkTaskArgs (mkRect 0 0) 1 [1]%float [0] [1] [1]%float
                      [0x1p-60]%float in
  diag_cached A 0 /\
  PrimFloat.eqb (nth 0 (adp A) 0%float) 0%float = false /\
  run_rows A [0%nat] [1]%float = [0]%float /\
  gauss_seidel_value A 0 [1]%float = 0x1p-60%float /\
  PrimFloat.eqb (nth 0 (run_rows A [0%nat] [1]%float) 0%float)
                (gauss_seidel_value A 0 [1]%float) = false.
Proof. repeat split. Qed.

(** C4, amended.  When row [i] is processed in a sweep (after the rows
    [pre] before it, in either direction), the code subtracts from [r[i]]
    the contribution of every packed entry of the row, one after the
    other, on the vector as the earlier rows of the sweep left it, adds
    back [x[i]*adp[i]] and divides by [adp[i]]; the other entries of [x]
    are not touched.  In exact arithmetic, when the packed values hold
    the diagonal once, equal to the cached [adp[i]], that value is
    [(r[i] - sum_{j<>i} A[i][j]*x[j]) / A[i][i]], whatever the columns
    are. *)
Theorem gauss_seidel_row (F : Type) (SF : Scalar F)
  (t : TaskArgs) (pre : list nat) (i : nat) (xp : list F) :
  (i < length xp)%nat ->
  let x := run_rows t pre xp in
  let x' := run_rows t (pre ++ [i]) xp in
  nth i x' zero
  = div (add (fold_left (row_subtract t i x)
                (seq 0 (Z.to_nat (nth i (azp t) 0))) (nth i (rp t) zero))
             (mul (nth i x zero) (nth i (adp t) zero)))
        (nth i (adp t) zero)
  /\ (forall k, k <> i -> nth k x' zero = nth k x zero)
  /\ (RingLaws F -> diag_cached t i ->
      nth i x' zero = gauss_seidel_value t i x).
Proof.
  intros Hi x x'. subst x x'. rewrite run_rows_app.
  change (run_rows t [i] (run_rows t pre xp))
    with (row_update t i (run_rows t pre xp)).
  assert (Hlen : (i < length (run_rows t pre xp))%nat)
    by (rewrite length_run_rows; exact Hi).
  split; [|split].
  - unfold row_update. now rewrite nth_store_same.
  - intros k Hk. unfold row_update. now apply nth_store_other.
  - intros RL Hdiag. now apply row_update_value.
Qed.

(** C4, amended, on the reals: row 1 of [[2 1] [1 2]] in a forward
    sweep, after row 0. *)
Lemma gauss_seidel_row_witness :
  let A := mkTaskArgs (mkRect 0 3) 2 [2; 1; 1; 2]%R [0; 1; 0; 1]
                      [2; 2] [2; 2]%R [1; 1]%R in
  (1 < length [0; 0]%R)%nat /\ RingLaws R /\ diag_cached A 1 /\
  nth 1 (run_rows A ([0%nat] ++ [1%nat]) [0; 0]%R) zero
  = gauss_seidel_value A 1 (run_rows A [0%nat] [0; 0]%R).
Proof.
  intros A.
  assert (Hi : (1 < length [0; 0]%R)%nat) by (simpl; lia).
  assert (Hd : diag_cached A 1) by reflexivity.
  split; [exact Hi|]. split; [exact R_RingLaws|]. split; [exact Hd|].
  exact (proj2 (proj2
           (gauss_seidel_row R R_Scalar A [0%nat] 1%nat [0; 0]%R Hi))
           R_RingLaws Hd).
Defined.

(* ================================================================= *)
(** ** The CG driver *)

Section CGFacts.
Context {F : Type} `{Scalar F}.
Variable K : Kernels F.

Lemma length_WAXPBY n (a : F) x b y w :
  length (ComputeWAXPBY n a x b y w) = length w.
Proof. unfold ComputeWAXPBY. rewrite length_map, length_seq. reflexivity. Qed.


(** The body runs to its end when [rtzFuture] has been set, which the
    first iteration does. *)
Lemma cg_body_ok mytimer nrow doPre k (s : CGState F) :
  k = 1 \/ s_rtzFuture s <> None ->
  exists s', cg_body K mytimer nrow doPre k s = Ok s' /\
             s_rtzFuture s' <> None /\ s_niters s' = k.
Proof.
  intros Hk. unfold cg_body, cg_direction.
  destruct (k =? 1) eqn:E.
  - simpl. eexists. split; [reflexivity|]. simpl. split; [discriminate|reflexivity].
  - destruct Hk as [-> | Hk]; [discriminate|].
    destruct (s_rtzFuture s) as [oldrtz|] eqn:Er; [|contradiction].
    simpl. eexists. split; [reflexivity|]. simpl.
    split; [discriminate|reflexivity].
Qed.

(** The loop stops at once when its condition is false and runs the
    body when it is true. *)
Lemma cg_loop_stop mytimer nrow maxIter tol doPre normr0 fuel k (s : CGState F) :
  cg_continue maxIter tol normr0 k s = false ->
  cg_loop K mytimer nrow maxIter tol doPre normr0 fuel k s = Ok (k, s).
Proof. intros Hc. destruct fuel; simpl; rewrite Hc; reflexivity. Qed.

Lemma cg_loop_step mytimer nrow maxIter tol doPre normr0 fuel k (s : CGState F) :
  cg_continue maxIter tol normr0 k s = true ->
  cg_loop K mytimer nrow maxIter tol doPre normr0 (S fuel) k s
  = (s' <- cg_body K mytimer nrow doPre k s ;;
     cg_loop K mytimer nrow maxIter tol doPre normr0 fuel (k + 1) s').
Proof. intros Hc. simpl. rewrite Hc. reflexivity. Qed.

(** With fuel for the iterations that remain, the loop is left through
    its condition. *)
Lemma cg_loop_total mytimer nrow maxIter tol doPre normr0 fuel :
  forall k (s : CGState F),
    k = 1 \/ s_rtzFuture s <> None ->
    (Z.to_nat (maxIter + 1 - k) <= fuel)%nat ->
    exists kf sf,
      cg_loop K mytimer nrow maxIter tol doPre normr0 fuel k s = Ok (kf, sf) /\
      cg_continue maxIter tol normr0 kf sf = false /\
      k <= kf /\
      (kf = k -> sf = s) /\
      (k < kf -> kf <= maxIter + 1 /\ s_niters sf = kf - 1).
Proof.
  induction fuel as [|fuel IH]; intros k s Hk Hfuel.
  - assert (Hgt : maxIter < k) by lia.
    assert (Hc : cg_continue maxIter tol normr0 k s = false).
    { unfold cg_continue. destruct (Z.leb_spec k maxIter); [lia|reflexivity]. }
    exists k, s. rewrite cg_loop_stop by exact Hc.
    repeat split; auto; lia.
  - destruct (cg_continue maxIter tol normr0 k s) eqn:Hc.
    + rewrite cg_loop_step by exact Hc.
      destruct (cg_body_ok mytimer nrow doPre k s Hk) as [s' [Hb [Hr Hn]]].
      rewrite Hb. simpl.
      assert (Hle : k <= maxIter).
      { unfold cg_continue in Hc. apply andb_true_iff in Hc.
        destruct Hc as [Hc _]. now apply Z.leb_le in Hc. }
      destruct (IH (k + 1) s' (or_intror Hr) ltac:(lia))
        as [kf [sf [Hl [Hstop [Hkf [Hsame Hran]]]]]].
      exists kf, sf. split; [exact Hl|]. split; [exact Hstop|].
      split; [lia|]. split; [lia|]. intros _.
      destruct (Z.eq_dec kf (k + 1)) as [-> | Hne].
      * rewrite (Hsame eq_refl). split; lia.
      * destruct (Hran ltac:(lia)). split; lia.
    + exists k, s. rewrite cg_loop_stop by exact Hc.
      repeat split; auto; lia.
Qed.

End CGFacts.

Section CGIteration.
Context {F : Type} `{Scalar F}.
Hypothesis RL : RingLaws F.
Variable K : Kernels F.

Add Ring scalar_ring_cg : (RL : ring_theory zero one add mul sub opp (@eq F)).





End CGIteration.




(** Two iterations in a row: the [beta] of the second divides its own
    [rtz] by the [rtz] of the first. *)
Lemma cg_beta_previous_rtz (F : Type) (SF : Scalar F) (K : Kernels F)
  (mytimer : nat -> F) (nrow : Z) (doPre : bool) (k : Z)
  (s s1 s2 : CGState F) (rtz1 rtz2 : F) :
  cg_body K mytimer nrow doPre k s = Ok s1 ->
  cg_body K mytimer nrow doPre (k + 1) s1 = Ok s2 ->
  k + 1 <> 1 ->
  s_rtzFuture s1 = Some rtz1 -> s_rtzFuture s2 = Some rtz2 ->
  s_beta s2 = div rtz2 rtz1 /\ s_oldrtzFuture s2 = Some rtz1.
Proof.
  intros _ H2 Hk Hr1 Hr2. revert H2.
  unfold cg_body, cg_direction.
  apply Z.eqb_neq in Hk. rewrite Hk, Hr1. simpl.
  intros E. injection E as <-. simpl in Hr2.
  injection Hr2 as <-. split; reflexivity.
Qed.

(** An iteration with [k = 2] in doubles, from a state whose
    [rtzFuture] holds the 4 of the iteration before: the new [rtz] is 1,
    [beta = 1/4], [p = z + beta*p = 1.5], and [alpha = 1/2.25] divides
    the new [rtz], not the 4. *)
Example cg_second_iteration_float :
  let s := mkState [1]%float [1]%float [0]%float [2]%float [2]%float
                   (Some 4%float) (Some 4%float) (Some 4%float) None
                   1%float 0%float 2%float 1
                   (mkTimers 0%float [0; 0; 0; 0; 0; 0; 0]%float 9) in
  match cg_body identity_kernels counting_timer 1 false 2 s with
  | Ok s' =>
      s_rtzFuture s' = Some 1%float /\
      s_oldrtzFuture s' = Some 4%float /\
      s_beta s' = 0.25%float /\
      s_p s' = [1.5]%float /\
      s_alpha s' = PrimFloat.div 1 2.25 /\
      s_niters s' = 2
  | _ => False
  end.
Proof. vm_compute. repeat split. Qed.

Section CGTiming.
Context {F : Type} `{Scalar F}.
Variable K : Kernels F.

Lemma erase_normr (s1 s2 : CGState F) :
  erase s1 = erase s2 -> s_normr s1 = s_normr s2.
Proof. intros E. change (s_normr (erase s1) = s_normr (erase s2)). now rewrite E. Qed.

(** The body reads the timer into the timing locals only. *)
Lemma cg_body_erase timer1 timer2 nrow doPre k (s1 s2 : CGState F) :
  erase s1 = erase s2 ->
  same_body_result (cg_body K timer1 nrow doPre k s1)
                   (cg_body K timer2 nrow doPre k s2).
Proof.
  destruct s1 as [x1 r1 z1 p1 Ap1 nF1 pF1 rF1 oF1 al1 be1 nr1 ni1 tm1].
  destruct s2 as [x2 r2 z2 p2 Ap2 nF2 pF2 rF2 oF2 al2 be2 nr2 ni2 tm2].
  unfold erase; simpl. intros E.
  injection E as -> -> -> -> -> -> -> -> -> -> -> -> ->.
  unfold cg_body, cg_direction; simpl.
  destruct (k =? 1); simpl; [reflexivity|].
  destruct rF2; simpl; reflexivity.
Qed.

Lemma cg_loop_erase timer1 timer2 nrow maxIter tol doPre normr0 fuel :
  forall k (s1 s2 : CGState F),
    erase s1 = erase s2 ->
    same_loop_result
      (cg_loop K timer1 nrow maxIter tol doPre normr0 fuel k s1)
      (cg_loop K timer2 nrow maxIter tol doPre normr0 fuel k s2).
Proof.
  induction fuel as [|fuel IH]; intros k s1 s2 E;
    pose proof (erase_normr s1 s2 E) as En;
    simpl; unfold cg_continue; rewrite En;
    destruct ((k <=? maxIter) && gtb (div (s_normr s2) normr0) tol);
    simpl; auto.
  pose proof (cg_body_erase timer1 timer2 nrow doPre k s1 s2 E) as Hb.
  destruct (cg_body K timer1 nrow doPre k s1) as [a| |];
    destruct (cg_body K timer2 nrow doPre k s2) as [b| |];
    simpl in *; try contradiction; auto.
Qed.

(** The buckets after the seven additions at the end of [CG]. *)
Lemma store_times (times : list F) d0 d1 d2 d3 d4 d5 d6 :
  length times = 7%nat ->
  add_time 0 d0
    (add_time 6 d6 (add_time 5 d5 (add_time 4 d4
       (add_time 3 d3 (add_time 2 d2 (add_time 1 d1 times))))))
  = add_all times [d0; d1; d2; d3; d4; d5; d6].
Proof.
  intros Hlen.
  destruct times as [|a0 [|a1 [|a2 [|a3 [|a4 [|a5 [|a6 [|a7 rest]]]]]]]];
    try discriminate.
  reflexivity.
Qed.

(** [CG] runs to its end: no empty future is read and the loop is left
    through its condition. *)
Lemma CG_total mytimer nrow (r z p Ap b x : list F) maxIter tol niters times doPre :
  exists out kf sf,
    CG K mytimer nrow r z p Ap b x maxIter tol niters times doPre = Ok out /\
    ret out = 0 /\
    out_x out = s_x sf /\ out_r out = s_r sf /\ out_z out = s_z sf /\
    out_p out = s_p sf /\ out_Ap out = s_Ap sf /\
    out_niters out = s_niters sf /\ out_normr out = s_normr sf /\
    out_normr0 out = initial_normr K nrow r p Ap b x /\
    cg_continue maxIter tol (out_normr0 out) kf sf = false /\
    1 <= kf /\
    (kf = 1 -> s_niters sf = niters /\ s_x sf = x /\
               s_normr sf = initial_normr K nrow r p Ap b x) /\
    (1 < kf -> kf <= maxIter + 1 /\ s_niters sf = kf - 1) /\
    out_times out
    = add_time 0 (sub (mytimer (clock (s_timers sf))) (mytimer 0%nat))
        (add_time 6 (nth 6 (t (s_timers sf)) zero)
        (add_time 5 (nth 5 (t (s_timers sf)) zero)
        (add_time 4 (nth 4 (t (s_timers sf)) zero)
        (add_time 3 (nth 3 (t (s_timers sf)) zero)
        (add_time 2 (nth 2 (t (s_timers sf)) zero)
        (add_time 1 (nth 1 (t (s_timers sf)) zero) times)))))).
Proof.
  unfold CG. simpl.
  match goal with
  | |- context [cg_loop K mytimer nrow maxIter tol doPre ?n0 ?fuel 1 ?s0] =>
      destruct (cg_loop_total K mytimer nrow maxIter tol doPre n0 fuel 1 s0
                  (or_introl eq_refl) ltac:(lia))
        as [kf [sf [Hl [Hstop [Hkf [Hsame Hran]]]]]]
  end.
  rewrite Hl. simpl.
  eexists. exists kf, sf. split; [reflexivity|]. simpl.
  repeat match goal with |- _ /\ _ => split end;
    try reflexivity; try assumption.
  intros ->. rewrite (Hsame eq_refl). simpl. repeat split.
Qed.

End CGTiming.

(** C3, as stated, fails: in doubles, with [b = A*x] the initial residual
    is zero, [normr/normr0] is [0/0], a NaN, and the loop is left before
    its first iteration ([niters] keeps the caller's 77) although [k = 1]
    does not exceed [maxIter = 10] and [normr/normr0 <= tolerance] is
    false. *)
Lemma cg_stops_on_nan_ratio :
  match CG identity_kernels counting_timer 1
           [0]%float [0]%float [0]%float [0]%float [0]%float [0]%float
           10 0x1p-20%float 77 [0; 0; 0; 0; 0; 0; 0]%float false with
  | Ok out =>
      out_niters out = 77 /\
      (1 <=? 10) = true /\
      PrimFloat.leb (div (out_normr out) (out_normr0 out)) 0x1p-20%float = false /\
      gtb (div (out_normr out) (out_normr0 out)) 0x1p-20%float = false
  | _ => False
  end.
Proof. vm_compute. repeat split. Qed.

(** C3, amended.  The loop is left exactly when its condition
    [k <= maxIter && normr/normr0 > tolerance] is false, that is when [k]
    exceeds [maxIter] or [normr/normr0 > tolerance] does not hold (the
    ratio is at most the tolerance, or is a NaN); it runs its body when
    the condition is true.  However the loop is left, [CG] runs to its
    end and returns zero, with [niters] the number of iterations when
    there was one. *)
Theorem cg_stops_and_returns_zero (F : Type) (SF : Scalar F) (K : Kernels F)
  (mytimer : nat -> F) (nrow : Z) (r z p Ap b x : list F) (maxIter : Z)
  (tolerance : F) (niters : Z) (times : list F) (doPreconditioning : bool) :
  maxIter < INT_MAX ->
  (forall normr0 k s,
      cg_continue maxIter tolerance normr0 k s = false
      <-> (maxIter < k \/ gtb (div (s_normr s) normr0) tolerance = false)) /\
  (forall normr0 fuel k s,
      cg_continue maxIter tolerance normr0 k s = false ->
      cg_loop K mytimer nrow maxIter tolerance doPreconditioning normr0 fuel k s
      = Ok (k, s)) /\
  (forall normr0 fuel k s,
      cg_continue maxIter tolerance normr0 k s = true ->
      cg_loop K mytimer nrow maxIter tolerance doPreconditioning normr0
              (S fuel) k s
      = (s' <- cg_body K mytimer nrow doPreconditioning k s ;;
         cg_loop K mytimer nrow maxIter tolerance doPreconditioning normr0
                 fuel (k + 1) s')) /\
  exists out kf,
    CG K mytimer nrow r z p Ap b x maxIter tolerance niters times
       doPreconditioning = Ok out /\
    ret out = 0 /\
    1 <= kf /\
    (maxIter < kf \/
     gtb (div (out_normr out) (out_normr0 out)) tolerance = false) /\
    (kf = 1 -> out_niters out = niters) /\
    (1 < kf -> kf <= maxIter + 1 /\ out_niters out = kf - 1).
Proof.
  intros _.
  assert (Hcond : forall normr0 k (s : CGState F),
             cg_continue maxIter tolerance normr0 k s = false
             <-> (maxIter < k \/ gtb (div (s_normr s) normr0) tolerance = false)).
  { intros normr0 k s. unfold cg_continue.
    rewrite andb_false_iff, Z.leb_gt. reflexivity. }
  split; [exact Hcond|].
  split; [intros; now apply cg_loop_stop|].
  split; [intros; now apply cg_loop_step|].
  destruct (CG_total K mytimer nrow r z p Ap b x maxIter tolerance niters
              times doPreconditioning)
    as (out & kf & sf & HCG & Hret & _ & _ & _ & _ & _ & Hni & Hnr & Hn0
        & Hstop & Hkf & Hzero & Hran & _).
  exists out, kf. split; [exact HCG|]. split; [exact Hret|].
  split; [exact Hkf|]. split.
  - apply Hcond in Hstop. rewrite Hnr. exact Hstop.
  - split.
    + intros Hk1. rewrite Hni. now apply Hzero.
    + intros Hk1. rewrite Hni. now apply Hran.
Qed.

(** C3, amended, on a run in doubles that converges in one iteration. *)
Lemma cg_stops_and_returns_zero_witness :
  10 < INT_MAX /\
  exists out kf,
    CG identity_kernels counting_timer 1
       [0]%float [0]%float [0]%float [0]%float [3]%float [1]%float
       10 0x1p-20%float 77 [0; 0; 0; 0; 0; 0; 0]%float false = Ok out /\
    ret out = 0 /\
    1 <= kf /\
    (10 < kf \/
     gtb (div (out_normr out) (out_normr0 out)) 0x1p-20%float = false) /\
    (kf = 1 -> out_niters out = 77) /\
    (1 < kf -> kf <= 10 + 1 /\ out_niters out = kf - 1).
Proof.
  assert (Hmax : 10 < INT_MAX) by (unfold INT_MAX; lia).
  split; [exact Hmax|].
  exact (proj2 (proj2 (proj2
           (cg_stops_and_returns_zero float float_Scalar identity_kernels
              counting_timer 1 [0]%float [0]%float [0]%float [0]%float
              [3]%float [1]%float 10 0x1p-20%float 77
              [0; 0; 0; 0; 0; 0; 0]%float false Hmax)))).
Defined.

(** C9.  When the loop body runs zero times ([maxIter < 1], or the
    initial [normr/normr0 > tolerance] does not hold, as for the NaN of a
    zero residual), [CG] returns zero, leaves the initial residual norm
    in [normr] and [normr0], and leaves in [niters] the value the caller
    passed. *)
Theorem cg_zero_iterations (F : Type) (SF : Scalar F) (K : Kernels F)
  (mytimer : nat -> F) (nrow : Z) (r z p Ap b x : list F) (maxIter : Z)
  (tolerance : F) (niters : Z) (times : list F) (doPreconditioning : bool) :
  let n0 := initial_normr K nrow r p Ap b x in
  maxIter < 1 \/ gtb (div n0 n0) tolerance = false ->
  exists out,
    CG K mytimer nrow r z p Ap b x maxIter tolerance niters times
       doPreconditioning = Ok out /\
    ret out = 0 /\
    out_niters out = niters /\
    out_normr out = n0 /\
    out_normr0 out = n0 /\
    out_x out = x.
Proof.
  intros n0 Hzero. unfold CG. simpl.
  fold (initial_normr K nrow r p Ap b x). fold n0.
  rewrite cg_loop_stop.
  - simpl. eexists. split; [reflexivity|]. simpl. repeat split.
  - unfold cg_continue. simpl. apply andb_false_iff.
    destruct Hzero as [Hm | Hg]; [left; apply Z.leb_gt; lia | right; exact Hg].
Qed.

(** C9 in doubles, at a right-hand side equal to [A*x]: the ratio is
    [0/0] and the caller's 77 stays in [niters]. *)
Lemma cg_zero_iterations_witness :
  let n0 := initial_normr identity_kernels 1 [0]%float [0]%float [0]%float
              [2]%float [2]%float in
  (10 < 1 \/ gtb (div n0 n0) 0x1p-20%float = false) /\
  exists out,
    CG identity_kernels counting_timer 1
       [0]%float [0]%float [0]%float [0]%float [2]%float [2]%float
       10 0x1p-20%float 77 [0; 0; 0; 0; 0; 0; 0]%float false = Ok out /\
    ret out = 0 /\
    out_niters out = 77 /\
    out_normr out = n0 /\
    out_normr0 out = n0 /\
    out_x out = [2]%float.
Proof.
  intros n0.
  assert (Hz : 10 < 1 \/ gtb (div n0 n0) 0x1p-20%float = false)
    by (right; reflexivity).
  split; [exact Hz|].
  exact (cg_zero_iterations float float_Scalar identity_kernels counting_timer
           1 [0]%float [0]%float [0]%float [0]%float [2]%float [2]%float
           10 0x1p-20%float 77 [0; 0; 0; 0; 0; 0; 0]%float false Hz).
Defined.

(** C8.  Two runs of [CG] that differ only in what the timer returns
    both run to their end and agree on the return status, [niters],
    [normr], [normr0] and every vector; each leaves in [times] the seven
    buckets the caller passed with an amount added to each. *)
Theorem cg_timing_is_a_side_effect (F : Type) (SF : Scalar F) (K : Kernels F)
  (timer1 timer2 : nat -> F) (nrow : Z) (r z p Ap b x : list F)
  (maxIter : Z) (tolerance : F) (niters : Z) (times : list F)
  (doPreconditioning : bool) :
  length times = 7%nat ->
  exists out1 out2 deltas1 deltas2,
    CG K timer1 nrow r z p Ap b x maxIter tolerance niters times
       doPreconditioning = Ok out1 /\
    CG K timer2 nrow r z p Ap b x maxIter tolerance niters times
       doPreconditioning = Ok out2 /\
    numeric out1 = numeric out2 /\
    length deltas1 = 7%nat /\ out_times out1 = add_all times deltas1 /\
    length deltas2 = 7%nat /\ out_times out2 = add_all times deltas2.
Proof.
  intros Hlen. unfold CG. simpl.
  match goal with
  | |- context [cg_loop K timer1 nrow maxIter tolerance doPreconditioning
                        ?n0 ?fuel 1 ?s1] =>
      match goal with
      | |- context [cg_loop K timer2 nrow maxIter tolerance doPreconditioning
                            n0 fuel 1 ?s2] =>
          destruct (cg_loop_total K timer1 nrow maxIter tolerance
                      doPreconditioning n0 fuel 1 s1
                      (or_introl eq_refl) ltac:(lia))
            as (k1 & sf1 & Hl1 & _);
          destruct (cg_loop_total K timer2 nrow maxIter tolerance
                      doPreconditioning n0 fuel 1 s2
                      (or_introl eq_refl) ltac:(lia))
            as (k2 & sf2 & Hl2 & _);
          pose proof (cg_loop_erase K timer1 timer2 nrow maxIter tolerance
                        doPreconditioning n0 fuel 1 s1 s2 eq_refl) as Hrel
      end
  end.
  rewrite Hl1, Hl2 in Hrel. simpl in Hrel. destruct Hrel as [_ He].
  rewrite Hl1, Hl2. simpl.
  do 2 eexists.
  exists [sub (timer1 (clock (s_timers sf1))) (timer1 0%nat);
          nth 1 (t (s_timers sf1)) zero; nth 2 (t (s_timers sf1)) zero;
          nth 3 (t (s_timers sf1)) zero; nth 4 (t (s_timers sf1)) zero;
          nth 5 (t (s_timers sf1)) zero; nth 6 (t (s_timers sf1)) zero].
  exists [sub (timer2 (clock (s_timers sf2))) (timer2 0%nat);
          nth 1 (t (s_timers sf2)) zero; nth 2 (t (s_timers sf2)) zero;
          nth 3 (t (s_timers sf2)) zero; nth 4 (t (s_timers sf2)) zero;
          nth 5 (t (s_timers sf2)) zero; nth 6 (t (s_timers sf2)) zero].
  split; [reflexivity|]. split; [reflexivity|]. simpl.
  split.
  - unfold numeric; simpl.
    assert (Hf : forall (A : Type) (f : CGState F -> A),
               f (erase sf1) = f (erase sf2)) by (intros; now rewrite He).
    pose proof (Hf _ s_x) as Hx. pose proof (Hf _ s_r) as Hr.
    pose proof (Hf _ s_z) as Hz. pose proof (Hf _ s_p) as Hp.
    pose proof (Hf _ s_Ap) as HAp. pose proof (Hf _ s_niters) as Hn.
    pose proof (Hf _ s_normr) as Hnr.
    simpl in Hx, Hr, Hz, Hp, HAp, Hn, Hnr.
    rewrite Hx, Hr, Hz, Hp, HAp, Hn, Hnr. reflexivity.
  - split; [reflexivity|]. split; [now apply store_times|].
    split; [reflexivity|]. now apply store_times.
Qed.

(** C8 in doubles: the same system timed by two clocks. *)
Lemma cg_timing_is_a_side_effect_witness :
  length [0; 0; 0; 0; 0; 0; 0]%float = 7%nat /\
  exists out1 out2 deltas1 deltas2,
    CG identity_kernels counting_timer 1
       [0]%float [0]%float [0]%float [0]%float [3]%float [1]%float
       10 0x1p-20%float 77 [0; 0; 0; 0; 0; 0; 0]%float false = Ok out1 /\
    CG identity_kernels slow_timer 1
       [0]%float [0]%float [0]%float [0]%float [3]%float [1]%float
       10 0x1p-20%float 77 [0; 0; 0; 0; 0; 0; 0]%float false = Ok out2 /\
    numeric out1 = numeric out2 /\
    length deltas1 = 7%nat /\
    out_times out1 = add_all [0; 0; 0; 0; 0; 0; 0]%float deltas1 /\
    length deltas2 = 7%nat /\
    out_times out2 = add_all [0; 0; 0; 0; 0; 0; 0]%float deltas2.
Proof.
  split; [reflexivity|].
  exact (cg_timing_is_a_side_effect float float_Scalar identity_kernels
           counting_timer slow_timer 1
           [0]%float [0]%float [0]%float [0]%float [3]%float [1]%float
           10 0x1p-20%float 77 [0; 0; 0; 0; 0; 0; 0]%float false eq_refl).
Defined.

(** The two timed runs of the witness: the same numbers, other times. *)
Example cg_two_clocks :
  CG identity_kernels counting_timer 1
     [0]%float [0]%float [0]%float [0]%float [3]%float [1]%float
     10 0x1p-20%float 77 [0; 0; 0; 0; 0; 0; 0]%float false
  = Ok (mkOut 0 [3]%float [0]%float [2]%float [2]%float [2]%float 1
              0%float 2%float [29; 12; 3; 2; 4; 1; 0]%float)
  /\
  CG identity_kernels slow_timer 1
     [0]%float [0]%float [0]%float [0]%float [3]%float [1]%float
     10 0x1p-20%float 77 [0; 0; 0; 0; 0; 0; 0]%float false
  = Ok (mkOut 0 [3]%float [0]%float [2]%float [2]%float [2]%float 1
              0%float 2%float [58; 24; 6; 4; 8; 2; 0]%float).
Proof. split; vm_compute; reflexivity. Qed.

(* ================================================================= *)
(** ** NaN in the residual and in the loop test *)

Lemma SFcompare_refl f : f <> S754_nan -> SFcompare f f = Some Eq.
Proof.
  destruct f as [s | s | | s m e]; simpl; intros Hn;
    try contradiction; try (destruct s; reflexivity).
  rewrite Z.compare_refl, Pos.compare_cont_refl. destruct s; reflexivity.
Qed.

Lemma is_nan_Prim2SF d : PrimFloat.is_nan d = true -> Prim2SF d = S754_nan.
Proof.
  unfold PrimFloat.is_nan. rewrite eqb_spec. unfold SFeqb.
  intros Hd. destruct (Prim2SF d) eqn:E; try reflexivity;
    rewrite SFcompare_refl in Hd by discriminate; discriminate.
Qed.

Lemma ltb_nan_r a d : PrimFloat.is_nan d = true -> PrimFloat.ltb a d = false.
Proof.
  intros Hd. rewrite ltb_spec, (is_nan_Prim2SF d Hd). unfold SFltb.
  destruct (Prim2SF a); reflexivity.
Qed.

Lemma ltb_nan_l a d : PrimFloat.is_nan a = true -> PrimFloat.ltb a d = false.
Proof. intros Ha. rewrite ltb_spec, (is_nan_Prim2SF a Ha). reflexivity. Qed.

Lemma abs_nan d :
  PrimFloat.is_nan d = true -> PrimFloat.is_nan (PrimFloat.abs d) = true.
Proof.
  intros Hd. unfold PrimFloat.is_nan at 1.
  rewrite eqb_spec, abs_spec, (is_nan_Prim2SF d Hd). reflexivity.
Qed.

Lemma ltb_true_not_nan a d :
  PrimFloat.ltb a d = true -> PrimFloat.is_nan d = false.
Proof.
  intros Hlt. destruct (PrimFloat.is_nan d) eqn:E; [|reflexivity].
  rewrite (ltb_nan_r a d E) in Hlt. discriminate.
Qed.

(** *** The order of the doubles *)

Lemma SFltb_irrefl x : SFltb x x = false.
Proof. unfold SFltb. destruct x as [s|s| |s m e]; sf_cases; cmp_cases. Qed.

Lemma SFltb_asym x y : SFltb x y = true -> SFltb y x = false.
Proof.
  unfold SFltb.
  destruct x as [s|s| |s m e], y as [s'|s'| |s' m' e'];
    sf_cases; intros Hlt; cmp_cases.
Qed.

Lemma SFltb_le_trans x y z :
  y <> S754_nan ->
  SFltb y x = false -> SFltb z y = false -> SFltb z x = false.
Proof.
  unfold SFltb.
  destruct x as [s|s| |s m e], y as [s'|s'| |s' m' e'],
           z as [s''|s''| |s'' m'' e''];
    intros Hy; try contradiction; clear Hy; sf_cases;
    intros H1 H2; cmp_cases.
Qed.

Lemma not_nan_Prim2SF d :
  PrimFloat.is_nan d = false -> Prim2SF d <> S754_nan.
Proof.
  unfold PrimFloat.is_nan. rewrite eqb_spec. intros Hd E.
  rewrite E in Hd. discriminate.
Qed.

Lemma ltb_irrefl a : PrimFloat.ltb a a = false.
Proof. rewrite ltb_spec. apply SFltb_irrefl. Qed.

Lemma ltb_asym a b : PrimFloat.ltb a b = true -> PrimFloat.ltb b a = false.
Proof. rewrite !ltb_spec. apply SFltb_asym. Qed.

(** [a <= b <= c] gives [a <= c] when the middle one is not a NaN. *)
Lemma ltb_le_trans a b c :
  PrimFloat.is_nan b = false ->
  PrimFloat.ltb b a = false -> PrimFloat.ltb c b = false ->
  PrimFloat.ltb c a = false.
Proof.
  intros Hb. rewrite !ltb_spec. apply SFltb_le_trans.
  now apply not_nan_Prim2SF.
Qed.

(** An absolute value that is neither a NaN nor above zero is zero. *)
Lemma abs_not_above_zero x :
  PrimFloat.is_nan (PrimFloat.abs x) = false ->
  PrimFloat.ltb 0 (PrimFloat.abs x) = false ->
  PrimFloat.abs x = 0%float.
Proof.
  intros Hn Hlt.
  apply not_nan_Prim2SF in Hn. rewrite ltb_spec in Hlt.
  rewrite <- (SF2Prim_Prim2SF (PrimFloat.abs x)).
  rewrite abs_spec in *.
  change (Prim2SF 0) with (S754_zero false) in Hlt.
  destruct (Prim2SF x) as [s|s| |s m e]; simpl in *;
    try discriminate; try contradiction; reflexivity.
Qed.

(** The running maximum in doubles, from an accumulator that is not a
    NaN: it is not a NaN, no contribution exceeds it, and it is the
    accumulator or one of the contributions. *)
Lemma fold_smax_float (ds : list float) : forall a,
  PrimFloat.is_nan a = false ->
  let m := fold_left smax ds a in
  PrimFloat.is_nan m = false /\
  PrimFloat.ltb m a = false /\
  (forall d, In d ds -> PrimFloat.ltb m d = false) /\
  (m = a \/ In m ds).
Proof.
  induction ds as [|d ds IH]; intros a Ha; cbn [fold_left].
  - split; [exact Ha|]. split; [apply ltb_irrefl|].
    split; [intros d []|now left].
  - assert (Hs : PrimFloat.is_nan (smax a d) = false).
    { unfold smax. cbn [gtb float_Scalar].
      destruct (PrimFloat.ltb a d) eqn:E; [|exact Ha].
      now apply ltb_true_not_nan in E. }
    assert (Hsa : PrimFloat.ltb (smax a d) a = false).
    { unfold smax. cbn [gtb float_Scalar].
      destruct (PrimFloat.ltb a d) eqn:E; [now apply ltb_asym|apply ltb_irrefl]. }
    assert (Hsd : PrimFloat.ltb (smax a d) d = false).
    { unfold smax. cbn [gtb float_Scalar].
      destruct (PrimFloat.ltb a d) eqn:E; [apply ltb_irrefl|exact E]. }
    destruct (IH (smax a d) Hs) as (Hm & Hle & Hub & Hatt).
    split; [exact Hm|].
    split; [apply (ltb_le_trans a (smax a d)); assumption|].
    split.
    + intros d' [<- | Hin]; [|now apply Hub].
      apply (ltb_le_trans d (smax a d)); assumption.
    + destruct Hatt as [-> | Hin]; [|now right; right].
      unfold smax. cbn [gtb float_Scalar].
      destruct (PrimFloat.ltb a d); [right; now left|now left].
Qed.

(** A value that bounds absolute values and is zero or one of them is the
    inf-norm of those that are not a NaN. *)
Lemma is_inf_norm_float m ds :
  (forall d, In d ds -> exists x, d = PrimFloat.abs x) ->
  PrimFloat.is_nan m = false ->
  (forall d, In d ds -> PrimFloat.ltb m d = false) ->
  (m = 0%float \/ In m ds) ->
  is_inf_norm m (not_nan_diffs ds).
Proof.
  intros Habs Hm Hub Hatt. unfold not_nan_diffs.
  assert (Hin : In m ds -> In m (filter (fun d => negb (PrimFloat.is_nan d)) ds)).
  { intros Hi. apply filter_In. split; [exact Hi|]. now rewrite Hm. }
  split; [|split].
  - intros d Hd. apply filter_In in Hd. now apply Hub.
  - intros Hnil. destruct Hatt as [-> | Hi]; [reflexivity|].
    apply Hin in Hi. rewrite Hnil in Hi. destruct Hi.
  - intros Hne. destruct Hatt as [-> | Hi]; [|now apply Hin].
    destruct (filter _ ds) as [|d l] eqn:E; [contradiction|].
    assert (Hd : In d (filter (fun d => negb (PrimFloat.is_nan d)) ds))
      by (rewrite E; now left).
    apply filter_In in Hd. destruct Hd as [Hd Hnn].
    apply negb_true_iff in Hnn.
    destruct (Habs d Hd) as [x ->].
    rewrite (abs_not_above_zero x Hnn (Hub _ Hd)). now left.
Qed.

Lemma abs_diffs_float_abs n (v1 v2 : list float) d :
  In d (abs_diffs n v1 v2) -> exists x, d = PrimFloat.abs x.
Proof.
  unfold abs_diffs. intros Hd. apply in_map_iff in Hd.
  destruct Hd as [i [<- _]]. eexists. reflexivity.
Qed.

(** C7, as stated, fails in the doubles the code computes in: a NaN
    difference never passes [diff > local_residual], so the kernel leaves
    zero where the only difference is a NaN. *)
Lemma residual_misses_nan :
  ComputeResidualKernel 1 [nan]%float [0]%float = (0, 0%float) /\
  abs_diffs 1 [nan]%float [0]%float = [nan]%float /\
  ~ is_inf_norm (snd (ComputeResidualKernel 1 [nan]%float [0]%float))
                (abs_diffs 1 [nan]%float [0]%float).
Proof.
  split; [reflexivity|]. split; [reflexivity|].
  intros (_ & _ & Hatt).
  assert (Hin : In (snd (ComputeResidualKernel 1 [nan]%float [0]%float))
                   (abs_diffs 1 [nan]%float [0]%float))
    by (apply Hatt; discriminate).
  destruct Hin as [E | []].
  apply (f_equal PrimFloat.is_nan) in E. vm_compute in E. discriminate.
Qed.

(** C7, amended.  In doubles, for any vectors, [ComputeResidualKernel]
    leaves in [residual] the greatest of the [|v1[i] - v2[i]|],
    [0 <= i < n], that are not a NaN, zero when there is none;
    [ComputeResidual], whose all-reduce combines with max the residuals
    the participants computed on their own vectors, leaves the greatest
    such difference over all of them; both return zero.  Where [>] is a
    total order (exact arithmetic) these are the greatest of all the
    differences. *)
Theorem residual_is_inf_norm :
  (forall (n : Z) (v1 v2 : list float)
          (parts : list (Z * list float * list float)),
     fst (ComputeResidualKernel n v1 v2) = 0 /\
     is_inf_norm (snd (ComputeResidualKernel n v1 v2))
                 (not_nan_diffs (abs_diffs n v1 v2)) /\
     fst (ComputeResidual n v1 v2 (map part_residual parts)) = 0 /\
     is_inf_norm (snd (ComputeResidual n v1 v2 (map part_residual parts)))
                 (not_nan_diffs
                    (abs_diffs n v1 v2 ++ flat_map part_diffs parts))) /\
  (forall (F : Type) (SF : Scalar F), OrderLaws F ->
   forall (n : Z) (v1 v2 : list F) (parts : list (Z * list F * list F)),
     is_inf_norm (snd (ComputeResidualKernel n v1 v2)) (abs_diffs n v1 v2) /\
     is_inf_norm (snd (ComputeResidual n v1 v2 (map part_residual parts)))
                 (abs_diffs n v1 v2 ++ flat_map part_diffs parts)).
Proof.
  split.
  - intros n v1 v2 parts.
    (* every participant's kernel *)
    assert (Hk : forall n v1 v2,
              let m := snd (ComputeResidualKernel n v1 v2) in
              PrimFloat.is_nan m = false /\
              (forall d, In d (abs_diffs n v1 v2) -> PrimFloat.ltb m d = false) /\
              (m = 0%float \/ In m (abs_diffs n v1 v2))).
    { intros n' w1 w2. cbv zeta. rewrite kernel_fold.
      destruct (fold_smax_float (abs_diffs n' w1 w2) 0%float eq_refl)
        as (Hm & _ & Hub & Hatt).
      auto. }
    split; [reflexivity|].
    destruct (Hk n v1 v2) as (Lm & Lub & Latt).
    split.
    { apply is_inf_norm_float; auto. apply abs_diffs_float_abs. }
    split; [reflexivity|].
    unfold ComputeResidual. cbn [snd].
    set (local := snd (ComputeResidualKernel n v1 v2)) in *.
    set (others := map part_residual parts).
    unfold allReduce_max.
    destruct (fold_smax_float others local Lm) as (Gm & Gloc & Gub & Gatt).
    set (g := fold_left smax others local) in *.
    apply is_inf_norm_float.
    + intros d Hd. apply in_app_or in Hd. destruct Hd as [Hd | Hd].
      * now apply abs_diffs_float_abs in Hd.
      * apply in_flat_map in Hd. destruct Hd as [p [_ Hd]].
        now apply abs_diffs_float_abs in Hd.
    + exact Gm.
    + intros d Hd. apply in_app_or in Hd. destruct Hd as [Hd | Hd].
      * apply (ltb_le_trans d local); auto.
      * apply in_flat_map in Hd. destruct Hd as [p [Hp Hd]].
        destruct (Hk (fst (fst p)) (snd (fst p)) (snd p)) as (Pm & Pub & _).
        apply (ltb_le_trans d (part_residual p)).
        -- exact Pm.
        -- now apply Pub.
        -- apply Gub. unfold others. now apply in_map.
    + destruct Gatt as [Hg | Hg].
      * rewrite Hg. destruct Latt as [L0 | Lin]; [now left|].
        right. apply in_or_app. now left.
      * unfold others in Hg. apply in_map_iff in Hg.
        destruct Hg as [p [Hpg Hp]]. rewrite <- Hpg.
        destruct (Hk (fst (fst p)) (snd (fst p)) (snd p)) as (_ & _ & Patt).
        destruct Patt as [P0 | Pin]; [now left|].
        right. apply in_or_app. right. apply in_flat_map.
        exists p. split; [exact Hp|exact Pin].
  - intros F SF OL n v1 v2 parts. split.
    + now apply kernel_is_inf_norm.
    + now apply global_is_inf_norm.
Qed.

(** C7, amended, at two inputs: doubles with a NaN difference, and real
    vectors with one other participant. *)
Lemma residual_is_inf_norm_witness :
  is_inf_norm (snd (ComputeResidualKernel 2 [1; nan]%float [3; 4]%float))
              (not_nan_diffs (abs_diffs 2 [1; nan]%float [3; 4]%float)) /\
  is_inf_norm (snd (ComputeResidual 2 [1; 5]%R [3; 4]%R
                      (map part_residual [(1, [7]%R, [2]%R)])))
              (abs_diffs 2 [1; 5]%R [3; 4]%R
               ++ flat_map part_diffs [(1, [7]%R, [2]%R)]).
Proof.
  split.
  - exact (proj1 (proj2 (proj1 residual_is_inf_norm
                           2 [1; nan]%float [3; 4]%float []))).
  - exact (proj2 (proj2 residual_is_inf_norm R R_Scalar R_OrderLaws
                    2 [1; 5]%R [3; 4]%R [(1, [7]%R, [2]%R)])).
Defined.

(** X1.  In doubles the residual is never a NaN, whatever the vectors
    hold, and it is the residual of the indices whose difference is not a
    NaN: a NaN difference never replaces the running maximum.  The task
    returns that same value. *)
Theorem residual_skips_nan (n : Z) (v1 v2 : list float) :
  PrimFloat.is_nan (snd (ComputeResidualKernel n v1 v2)) = false /\
  snd (ComputeResidualKernel n v1 v2)
  = fold_left (residual_step v1 v2)
      (filter (fun i => negb (nan_diff v1 v2 i)) (seq 0 (Z.to_nat n)))
      0%float /\
  ComputeResidualTask n v1 v2 = snd (ComputeResidualKernel n v1 v2).
Proof.
  unfold ComputeResidualTask, ComputeResidualKernel. cbn [snd].
  split; [|split; [|reflexivity]].
  - assert (Hinv : forall idx acc,
              PrimFloat.is_nan acc = false ->
              PrimFloat.is_nan (fold_left (residual_step v1 v2) idx acc) = false).
    { induction idx as [|i idx IH]; intros acc Hacc; simpl; [exact Hacc|].
      apply IH. unfold residual_step. simpl.
      destruct (PrimFloat.ltb acc _) eqn:E; [|exact Hacc].
      now apply ltb_true_not_nan in E. }
    apply Hinv. reflexivity.
  - assert (Hskip : forall idx acc,
              fold_left (residual_step v1 v2) idx acc
              = fold_left (residual_step v1 v2)
                  (filter (fun i => negb (nan_diff v1 v2 i)) idx) acc).
    { induction idx as [|i idx IH]; intros acc; simpl; [reflexivity|].
      destruct (nan_diff v1 v2 i) eqn:E; simpl.
      - rewrite <- IH. f_equal. unfold residual_step. simpl.
        unfold nan_diff in E. apply abs_nan in E.
        now rewrite (ltb_nan_r acc _ E).
      - apply IH. }
    apply Hskip.
Qed.

(** X2.  In doubles, when the initial residual norm is zero (the ratio
    [normr/normr0] is then [0/0], a NaN) or when the tolerance is a NaN,
    the loop test is false at once, for every [maxIter]: [CG] returns
    zero without an iteration, [x] and the caller's [niters] are left as
    they were, and [normr] is [normr0]. *)
Theorem cg_nan_test_float (K : Kernels float) (mytimer : nat -> float)
  (nrow : Z) (r z p Ap b x : list float) (maxIter : Z) (tolerance : float)
  (niters : Z) (times : list float) (doPreconditioning : bool) :
  initial_normr K nrow r p Ap b x = 0%float
  \/ PrimFloat.is_nan tolerance = true ->
  exists out,
    CG K mytimer nrow r z p Ap b x maxIter tolerance niters times
       doPreconditioning = Ok out /\
    ret out = 0 /\ out_niters out = niters /\ out_x out = x /\
    out_normr out = out_normr0 out.
Proof.
  intros Hnan. unfold initial_normr in Hnan. unfold CG.
  cbn -[PrimFloat.ltb PrimFloat.div PrimFloat.sqrt cg_loop] in Hnan |- *.
  rewrite cg_loop_stop.
  - simpl. eexists. split; [reflexivity|]. simpl. repeat split.
  - unfold cg_continue. cbn -[PrimFloat.ltb PrimFloat.div PrimFloat.sqrt].
    apply andb_false_iff. right.
    destruct Hnan as [Hzero | Htol].
    + rewrite Hzero. now apply ltb_nan_r.
    + now apply ltb_nan_l.
Qed.

(** X2 on the identity system with [b = A*x]. *)
Lemma cg_nan_test_float_witness :
  (initial_normr identity_kernels 2 [0; 0]%float [0; 0]%float [0; 0]%float
     [1; 2]%float [1; 2]%float = 0%float
   \/ PrimFloat.is_nan 0x1p-20%float = true) /\
  exists out,
    CG identity_kernels counting_timer 2
       [0; 0]%float [0; 0]%float [0; 0]%float [0; 0]%float
       [1; 2]%float [1; 2]%float 50 0x1p-20%float 5
       [0; 0; 0; 0; 0; 0; 0]%float true = Ok out /\
    ret out = 0 /\ out_niters out = 5 /\ out_x out = [1; 2]%float /\
    out_normr out = out_normr0 out.
Proof.
  assert (Hz : initial_normr identity_kernels 2 [0; 0]%float [0; 0]%float
                 [0; 0]%float [1; 2]%float [1; 2]%float = 0%float
               \/ PrimFloat.is_nan 0x1p-20%float = true)
    by (left; reflexivity).
  split; [exact Hz|].
  exact (cg_nan_test_float identity_kernels counting_timer 2
           [0; 0]%float [0; 0]%float [0; 0]%float [0; 0]%float
           [1; 2]%float [1; 2]%float 50 0x1p-20%float 5
           [0; 0; 0; 0; 0; 0; 0]%float true Hz).
Defined.

(* ================================================================= *)
(** ** The timing buckets *)

Section Bucket6.
Context {F : Type} `{Scalar F}.
Variable K : Kernels F.
Variable mytimer : nat -> F.

Lemma slot_TICK j (tm : Timers F) :
  nth j (t (TICK mytimer tm)) zero = nth j (t tm) zero.
Proof. reflexivity. Qed.

Lemma slot_TOCK i j (tm : Timers F) :
  j <> i -> nth j (t (TOCK mytimer i tm)) zero = nth j (t tm) zero.
Proof. intros Hne. unfold TOCK. cbn [t]. now apply nth_store_other. Qed.

Lemma slot_dot_time j (tm : Timers F) :
  j <> 4%nat -> nth j (t (dot_time K mytimer tm)) zero = nth j (t tm) zero.
Proof.
  intros Hne. unfold dot_time.
  destruct (DotProductTime K mytimer (clock tm) (nth 4 (t tm) zero)) as [t4 clk].
  cbn [t]. now apply nth_store_other.
Qed.

(** No statement of the body stores into [t6]. *)
Lemma cg_body_slot6 nrow doPre k (s s' : CGState F) :
  cg_body K mytimer nrow doPre k s = Ok s' ->
  nth 6 (t (s_timers s')) zero = nth 6 (t (s_timers s)) zero.
Proof.
  unfold cg_body, cg_direction.
  destruct (k =? 1).
  - cbn [bind ComputeFuture_DIV ComputeFuture_SQRT].
    intros E. injection E as <-. cbn [s_timers].
    repeat first [ rewrite slot_TICK
                 | rewrite slot_TOCK by discriminate
                 | rewrite slot_dot_time by discriminate ].
    reflexivity.
  - destruct (s_rtzFuture s);
      cbn [bind ComputeFuture_DIV ComputeFuture_SQRT]; [|discriminate].
    intros E. injection E as <-. cbn [s_timers].
    repeat first [ rewrite slot_TICK
                 | rewrite slot_TOCK by discriminate
                 | rewrite slot_dot_time by discriminate ].
    reflexivity.
Qed.

Lemma cg_loop_slot6 nrow maxIter tol doPre normr0 fuel :
  forall k (s : CGState F) kf sf,
    cg_loop K mytimer nrow maxIter tol doPre normr0 fuel k s = Ok (kf, sf) ->
    nth 6 (t (s_timers sf)) zero = nth 6 (t (s_timers s)) zero.
Proof.
  induction fuel as [|fuel IH]; intros k s kf sf; simpl;
    destruct (cg_continue maxIter tol normr0 k s); try discriminate;
    try (intros E; injection E as _ <-; reflexivity).
  destruct (cg_body K mytimer nrow doPre k s) as [s'| |] eqn:Hb;
    simpl; try discriminate.
  intros Hl. rewrite (IH _ _ _ _ Hl). now apply (cg_body_slot6 nrow doPre k).
Qed.

(** X3.  The halo-exchange bucket [times[6]] never receives a timer
    reading: [t6] is initialised to zero and no statement of [CG] stores
    into it, so whatever the timer, the kernels and the number of
    iterations, [CG] adds exactly zero to it. *)
Theorem cg_halo_bucket_gets_zero (nrow : Z) (r z p Ap b x : list F)
  (maxIter : Z) (tolerance : F) (niters : Z) (times : list F)
  (doPreconditioning : bool) :
  length times = 7%nat ->
  exists out,
    CG K mytimer nrow r z p Ap b x maxIter tolerance niters times
       doPreconditioning = Ok out /\
    nth 6 (out_times out) zero = add (nth 6 times zero) zero.
Proof.
  intros Hlen. unfold CG. cbn [bind ComputeFuture_SQRT].
  match goal with
  | |- context [cg_loop K mytimer nrow maxIter tolerance doPreconditioning
                        ?n0 ?fuel 1 ?s0] =>
      destruct (cg_loop_total K mytimer nrow maxIter tolerance
                  doPreconditioning n0 fuel 1 s0
                  (or_introl eq_refl) ltac:(lia))
        as (kf & sf & Hl & _);
      pose proof (cg_loop_slot6 nrow maxIter tolerance doPreconditioning
                    n0 fuel 1 s0 kf sf Hl) as H6
  end.
  rewrite Hl. cbn [bind snd]. eexists. split; [reflexivity|].
  cbn [out_times]. cbn [s_timers] in H6.
  repeat first [ rewrite slot_TICK in H6
               | rewrite slot_TOCK in H6 by discriminate
               | rewrite slot_dot_time in H6 by discriminate ].
  simpl in H6.
  rewrite store_times by exact Hlen. rewrite H6.
  destruct times as [|a0 [|a1 [|a2 [|a3 [|a4 [|a5 [|a6 [|a7 rest]]]]]]]];
    try discriminate.
  reflexivity.
Qed.

End Bucket6.

(** X3 on a run in doubles. *)
Lemma cg_halo_bucket_gets_zero_witness :
  length [1; 2; 3; 4; 5; 6; 7]%float = 7%nat /\
  exists out,
    CG identity_kernels counting_timer 1
       [0]%float [0]%float [0]%float [0]%float [3]%float [1]%float
       10 0x1p-20%float 0 [1; 2; 3; 4; 5; 6; 7]%float false = Ok out /\
    nth 6 (out_times out) zero = add (nth 6 [1; 2; 3; 4; 5; 6; 7]%float zero) zero.
Proof.
  split; [reflexivity|].
  exact (@cg_halo_bucket_gets_zero float float_Scalar identity_kernels
           counting_timer 1 [0]%float [0]%float [0]%float [0]%float
           [3]%float [1]%float 10 0x1p-20%float 0
           [1; 2; 3; 4; 5; 6; 7]%float false eq_refl).
Defined.

(* ================================================================= *)
(** ** More on the smoother *)

Lemma store_nth_same {A : Type} (i : nat) (d : A) (l : list A) :
  store i (nth i l d) l = l.
Proof.
  revert i. induction l as [|h l IH]; intros [|i]; simpl; try reflexivity.
  now rewrite IH.
Qed.

Section SymgsMore.
Context {F : Type} `{Scalar F}.

Lemma sweep_rows_lt sweep n i : In i (sweep_rows sweep n) -> (i < n)%nat.
Proof.
  unfold sweep_rows. destruct (1 =? sweep); [|rewrite <- in_rev];
    intros Hin; apply in_seq in Hin; lia.
Qed.

(** Rows that are not in the list are not written. *)
Lemma run_rows_frame (t : TaskArgs) rows : forall (xp : list F) k,
  ~ In k rows -> nth k (run_rows t rows xp) zero = nth k xp zero.
Proof.
  unfold run_rows. induction rows as [|i rows IH]; intros xp k Hk; simpl.
  - reflexivity.
  - rewrite IH by (intros Hin; apply Hk; now right).
    unfold row_update. apply nth_store_other.
    intros ->. apply Hk. now left.
Qed.

Lemma index_launch_frame (argMap : nat -> TaskArgs) sweep points :
  forall (xp x' : list F),
    index_launch argMap points sweep xp = Done x' ->
    length x' = length xp /\
    forall k, (forall pt, In pt points -> (lNRows (argMap pt) <= k)%nat) ->
              nth k x' zero = nth k xp zero.
Proof.
  induction points as [|pt rest IH]; intros xp x'; simpl.
  - intros E. injection E as <-. auto.
  - unfold symgsTask.
    destruct (0 =? volume (vals_sgb (argMap pt)) mod nCols (argMap pt));
      [|discriminate].
    intros Hl. destruct (IH _ _ Hl) as [Hlen Hfr]. split.
    + rewrite Hlen. apply length_run_rows.
    + intros k Hk. rewrite Hfr by (intros q Hq; apply Hk; now right).
      apply run_rows_frame. intros Hin. apply sweep_rows_lt in Hin.
      specialize (Hk pt (or_introl eq_refl)). lia.
Qed.

End SymgsMore.

(** X4.  [symgs] never resizes [x] and writes only local row indices:
    when it runs to its end, [x] has the length it had and every entry
    whose index is at or beyond the row count of every point task is
    what it was; in particular a launch over tasks without rows leaves
    [x] as it is. *)
Theorem symgs_frame (F : Type) (SF : Scalar F) (volA volx volr : Z)
  (argMap : nat -> TaskArgs) (xp x' : list F) :
  symgs volA volx volr argMap xp = Done x' ->
  length x' = length xp /\
  forall k,
    (forall pt, In pt (seq 0 (Z.to_nat volA)) ->
                (lNRows (argMap pt) <= k)%nat) ->
    nth k x' zero = nth k xp zero.
Proof.
  unfold symgs. destruct ((volA =? volx) && (volx =? volr)); [|discriminate].
  simpl.
  destruct (index_launch argMap (seq 0 (Z.to_nat volA)) 0 xp) as [x0|a] eqn:E0;
    [|discriminate].
  destruct (index_launch argMap (seq 0 (Z.to_nat volA)) 1 x0) as [x1|a] eqn:E1;
    [|discriminate].
  intros E. injection E as <-.
  destruct (index_launch_frame argMap 0 _ _ _ E0) as [Hl0 Hf0].
  destruct (index_launch_frame argMap 1 _ _ _ E1) as [Hl1 Hf1].
  split; [congruence|].
  intros k Hk. rewrite Hf1, Hf0 by exact Hk. reflexivity.
Qed.

(** X4 on the two-row system in doubles, with a third entry of [x]
    beyond the rows. *)
Lemma symgs_frame_witness :
  let A := mkTaskArgs (mkRect 0 3) 2 [2; 1; 1; 2]%float [0; 1; 0; 1]
                      [2; 2] [2; 2]%float [1; 1]%float in
  symgs 1 1 1 (fun _ => A) [0; 0; 9]%float = Done [0.25; 0.375; 9]%float /\
  length [0.25; 0.375; 9]%float = length [0; 0; 9]%float /\
  forall k,
    (forall pt, In pt (seq 0 (Z.to_nat 1)) -> (lNRows A <= k)%nat) ->
    nth k [0.25; 0.375; 9]%float zero = nth k [0; 0; 9]%float zero.
Proof.
  intros A.
  assert (Hrun : symgs 1 1 1 (fun _ => A) [0; 0; 9]%float
                 = Done [0.25; 0.375; 9]%float) by reflexivity.
  split; [exact Hrun|].
  exact (symgs_frame float float_Scalar 1 1 1 (fun _ => A)
           [0; 0; 9]%float [0.25; 0.375; 9]%float Hrun).
Defined.

Lemma R_DivLaws : DivLaws R.
Proof. intros a d Hd. simpl in *. field. exact Hd. Qed.

Section SweepValues.
Context {F : Type} `{Scalar F}.
Hypothesis RL : RingLaws F.

Add Ring scalar_ring_sweep : (RL : ring_theory zero one add mul sub opp (@eq F)).

(** X6.  In exact arithmetic, after a whole forward sweep over [n] rows
    the entry [x[i]] of a row that stores its diagonal once, equal to
    [adp[i]], is the Gauss-Seidel value taken on the vector as the rows
    [0 .. i-1] left it (rows after [i] do not write it), and after a
    whole backward sweep it is the value taken on the vector as the rows
    [n-1 .. i+1] left it. *)
Theorem sweep_values (t : TaskArgs) (n i : nat) (xp : list F) :
  (i < n)%nat -> (i < length xp)%nat -> diag_cached t i ->
  nth i (run_rows t (forward n) xp) zero
  = gauss_seidel_value t i (run_rows t (forward i) xp)
  /\
  nth i (run_rows t (backward n) xp) zero
  = gauss_seidel_value t i
      (run_rows t (rev (seq (S i) (n - S i))) xp).
Proof.
  intros Hin Hi Hdiag. unfold forward, backward.
  assert (Hsplit : seq 0 n = seq 0 i ++ [i] ++ seq (S i) (n - S i)).
  { replace n with (i + (1 + (n - S i)))%nat at 1 by lia.
    rewrite seq_app, seq_app. simpl.
    replace (i + 1)%nat with (S i) by lia. reflexivity. }
  split.
  - rewrite Hsplit, run_rows_app, run_rows_app.
    rewrite run_rows_frame by (intros Hc; apply in_seq in Hc; lia).
    change (run_rows t [i] (run_rows t (seq 0 i) xp))
      with (row_update t i (run_rows t (seq 0 i) xp)).
    apply row_update_value; [exact RL | | exact Hdiag].
    rewrite length_run_rows. exact Hi.
  - rewrite Hsplit, !rev_app_distr. simpl rev.
    rewrite <- app_assoc. rewrite run_rows_app, run_rows_app.
    rewrite run_rows_frame
      by (rewrite <- in_rev; intros Hc; apply in_seq in Hc; lia).
    change (run_rows t [i] (run_rows t (rev (seq (S i) (n - S i))) xp))
      with (row_update t i (run_rows t (rev (seq (S i) (n - S i))) xp)).
    apply row_update_value; [exact RL | | exact Hdiag].
    rewrite length_run_rows. exact Hi.
Qed.

Hypothesis DL : DivLaws F.

(** A row whose equation holds is left as it is. *)
Lemma row_update_solved (t : TaskArgs) (i : nat) (xp : list F) :
  (i < length xp)%nat -> diag_cached t i -> nth i (adp t) zero <> zero ->
  row_solved t i xp ->
  row_update t i xp = xp.
Proof.
  intros Hi Hdiag Hnz Hrow.
  assert (Hv : nth i (row_update t i xp) zero = nth i xp zero).
  { rewrite row_update_value by assumption.
    unfold gauss_seidel_value, offdiag_sum.
    unfold row_solved in Hrow.
    rewrite (entries_sum_filter RL xp (fun e => fst e =? Z.of_nat i)) in Hrow.
    unfold diag_cached in Hdiag. rewrite Hdiag in Hrow.
    unfold entries_sum at 1 in Hrow. simpl in Hrow.
    unfold entry_term at 1 in Hrow. simpl in Hrow.
    rewrite Nat2Z.id in Hrow. rewrite <- Hrow.
    match goal with
    | |- div ?num ?d = ?a => replace num with (mul d a) by ring
    end.
    now apply DL. }
  unfold row_update in Hv |- *.
  rewrite nth_store_same in Hv by exact Hi.
  rewrite Hv. apply store_nth_same.
Qed.

Lemma run_rows_solved (t : TaskArgs) rows (xp : list F) :
  (forall i, In i rows ->
     (i < length xp)%nat /\ diag_cached t i /\
     nth i (adp t) zero <> zero /\ row_solved t i xp) ->
  run_rows t rows xp = xp.
Proof.
  unfold run_rows. induction rows as [|i rows IH]; intros Hall; simpl.
  - reflexivity.
  - destruct (Hall i (or_introl eq_refl)) as (Hi & Hd & Hnz & Hrow).
    rewrite row_update_solved by assumption.
    apply IH. intros j Hj. apply Hall. now right.
Qed.

(** X7.  In exact arithmetic a solution is a fixed point of the
    smoother: when every local row of every point task stores its
    non-zero diagonal once, equal to [adp[i]], and its equation
    [sum_j A[i][j]*x[j] = r[i]] holds on [x], [symgs] returns [x]
    unchanged. *)
Theorem symgs_fixed_point (vol : Z) (argMap : nat -> TaskArgs)
  (xp : list F) :
  (forall pt, In pt (seq 0 (Z.to_nat vol)) ->
     volume (vals_sgb (argMap pt)) mod nCols (argMap pt) = 0 /\
     forall i, (i < lNRows (argMap pt))%nat ->
       (i < length xp)%nat /\ diag_cached (argMap pt) i /\
       nth i (adp (argMap pt)) zero <> zero /\
       row_solved (argMap pt) i xp) ->
  symgs vol vol vol argMap xp = Done xp.
Proof.
  intros Hall. unfold symgs. rewrite !Z.eqb_refl. simpl.
  assert (Hok : forall pt, In pt (seq 0 (Z.to_nat vol)) ->
            volume (vals_sgb (argMap pt)) mod nCols (argMap pt) = 0)
    by (intros pt Hpt; now apply Hall).
  assert (Hsweep : forall sweep,
            sweep_points argMap (seq 0 (Z.to_nat vol)) (sweep_rows sweep) xp
            = xp).
  { intros sweep. unfold sweep_points.
    generalize Hall. generalize (seq 0 (Z.to_nat vol)) as pts.
    induction pts as [|pt rest IH]; intros Hpts; simpl; [reflexivity|].
    rewrite run_rows_solved.
    - apply IH. intros q Hq. apply Hpts. now right.
    - intros i Hin. apply sweep_rows_lt in Hin.
      now apply (proj2 (Hpts pt (or_introl eq_refl))). }
  rewrite (index_launch_done argMap 0 _ Hok), Hsweep.
  rewrite (index_launch_done argMap 1 _ Hok), Hsweep.
  reflexivity.
Qed.

End SweepValues.

(** X6 on the reals: row 0 of [[2 1] [1 2]] in sweeps over two rows. *)
Lemma sweep_values_witness :
  let A := mkTaskArgs (mkRect 0 3) 2 [2; 1; 1; 2]%R [0; 1; 0; 1]
                      [2; 2] [2; 2]%R [1; 1]%R in
  ((0 < 2)%nat /\ (0 < length [0; 0]%R)%nat /\ diag_cached A 0) /\
  nth 0 (run_rows A (forward 2) [0; 0]%R) zero
  = gauss_seidel_value A 0 (run_rows A (forward 0) [0; 0]%R)
  /\
  nth 0 (run_rows A (backward 2) [0; 0]%R) zero
  = gauss_seidel_value A 0 (run_rows A (rev (seq 1 (2 - 1))) [0; 0]%R).
Proof.
  intros A.
  assert (Hn : (0 < 2)%nat) by lia.
  assert (Hi : (0 < length [0; 0]%R)%nat) by (simpl; lia).
  assert (Hd : diag_cached A 0) by reflexivity.
  split; [repeat split; assumption|].
  exact (@sweep_values R R_Scalar R_RingLaws A 2%nat 0%nat [0; 0]%R Hn Hi Hd).
Defined.

(** X7 on the reals: [x = [1 1]] solves [[2 1] [1 2]] x = [3 3]. *)
Lemma symgs_fixed_point_witness :
  let A := mkTaskArgs (mkRect 0 3) 2 [2; 1; 1; 2]%R [0; 1; 0; 1]
                      [2; 2] [2; 2]%R [3; 3]%R in
  symgs 1 1 1 (fun _ => A) [1; 1]%R = Done [1; 1]%R.
Proof.
  intros A.
  apply (@symgs_fixed_point R R_Scalar R_RingLaws R_DivLaws 1 (fun _ => A)
           [1; 1]%R).
  intros pt _. split; [reflexivity|].
  intros i Hi. change (lNRows A) with 2%nat in Hi.
  assert (Hcase : i = 0%nat \/ i = 1%nat) by lia.
  destruct Hcase as [-> | ->];
    (split; [simpl; lia|]; split; [reflexivity|];
     split; [simpl; lra|]; unfold row_solved; simpl; lra).
Defined.

(* ================================================================= *)
(** ** Dense offsets *)

Lemma find_dim_seq offset exp_offset : forall n a j0,
  (a <= j0 < a + n)%nat -> nth j0 offset 0 = exp_offset ->
  exists j, Item.find_dim (seq a n) offset exp_offset = Some j /\
            (a <= j <= j0)%nat /\ nth j offset 0 = exp_offset.
Proof.
  induction n as [|n IH]; intros a j0 Hj0 Hoff; [lia|].
  simpl. destruct (Z.eqb_spec (nth a offset 0) exp_offset) as [Heq | Hne].
  - exists a. repeat split; [lia | lia | exact Heq].
  - assert (Hne0 : j0 <> a) by (intros ->; contradiction).
    destruct (IH (S a) j0 ltac:(lia) Hoff) as [j [Hf [Hj Hn]]].
    exists j. repeat split; [exact Hf | lia | lia | exact Hn].
Qed.

(** X8.  [offsetsAreDense] accepts, in any number of dimensions, the
    byte offsets of a dense layout whose dimension 0 varies fastest:
    first offset the element size, each next one the previous one times
    the extent of its dimension. *)
Theorem offsetsAreDense_accepts_dense (DIM : nat) (sizeofT : Z)
  (bounds : Item.RectN) (offset : list Z) :
  LegionStuff.dense_layout DIM sizeofT bounds offset ->
  Item.offsetsAreDense DIM sizeofT bounds offset = true.
Proof.
  intros [H0 Hnext]. unfold Item.offsetsAreDense.
  assert (Hloop : forall rounds exp_offset j0,
            (j0 + rounds <= DIM)%nat -> nth j0 offset 0 = exp_offset ->
            Item.dense_loop rounds DIM bounds offset exp_offset = true).
  { induction rounds as [|rounds IH]; intros exp_offset j0 Hfit Hoff;
      [reflexivity|].
    simpl.
    destruct (find_dim_seq offset exp_offset DIM 0 j0 ltac:(lia) Hoff)
      as [j [Hf [Hj Hn]]].
    rewrite Hf.
    destruct rounds as [|rounds']; [reflexivity|].
    apply (IH _ (S j)); [lia|].
    rewrite Hnext by lia. rewrite Hn. reflexivity. }
  destruct DIM as [|d]; [reflexivity|].
  apply (Hloop _ _ 0%nat); [lia|]. apply H0. lia.
Qed.

(** X8 on an array of doubles with extents 10, 4 and 3. *)
Lemma offsetsAreDense_accepts_dense_witness :
  LegionStuff.dense_layout 3 8 (Item.mkRectN [0; 0; 5] [9; 3; 7]) [8; 80; 320]
  /\ Item.offsetsAreDense 3 8 (Item.mkRectN [0; 0; 5] [9; 3; 7]) [8; 80; 320]
     = true.
Proof.
  assert (Hd : LegionStuff.dense_layout 3 8
                 (Item.mkRectN [0; 0; 5] [9; 3; 7]) [8; 80; 320]).
  { split; [reflexivity|]. intros j Hj.
    assert (Hc : j = 0%nat \/ j = 1%nat) by lia.
    destruct Hc as [-> | ->]; reflexivity. }
  split; [exact Hd|].
  exact (offsetsAreDense_accepts_dense 3 8
           (Item.mkRectN [0; 0; 5] [9; 3; 7]) [8; 80; 320] Hd).
Defined.

(** X9.  [offsetsAreDense] does not look at the other offsets when the
    first dimension whose offset is the element size has extent 1: the
    expected offset then never grows and that dimension is found again
    in every round, so any layout of the remaining dimensions passes. *)
Theorem offsetsAreDense_unit_extent (DIM : nat) (sizeofT : Z)
  (bounds : Item.RectN) (offset : list Z) (j : nat) :
  Item.find_dim (seq 0 DIM) offset sizeofT = Some j ->
  nth j (Item.his bounds) 0 = nth j (Item.los bounds) 0 ->
  Item.offsetsAreDense DIM sizeofT bounds offset = true.
Proof.
  intros Hfind Hunit. unfold Item.offsetsAreDense.
  generalize DIM at 1 as rounds.
  induction rounds as [|rounds IH]; [reflexivity|].
  simpl. rewrite Hfind.
  replace (sizeofT * (nth j (Item.his bounds) 0 - nth j (Item.los bounds) 0 + 1))
    with sizeofT by (rewrite Hunit; lia).
  exact IH.
Qed.

(** X9 on a 1 x 5 rectangle of doubles whose second stride is 1000
    bytes. *)
Lemma offsetsAreDense_unit_extent_witness :
  Item.find_dim (seq 0 2) [8; 1000] 8 = Some 0%nat /\
  Item.offsetsAreDense 2 8 (Item.mkRectN [3; 0] [3; 4]) [8; 1000] = true.
Proof.
  split; [reflexivity|].
  exact (offsetsAreDense_unit_extent 2 8 (Item.mkRectN [3; 0] [3; 4])
           [8; 1000] 0%nat eq_refl eq_refl).
Defined.

(** X10.  [offsetMismatch(i, off1, off2)] is false exactly when the
    first [i] offsets of the two arrays agree; for [i <= 0] nothing is
    compared and it is false. *)
Theorem offsetMismatch_spec (i : Z) (off1 off2 : list Z) :
  (Z.to_nat i <= length off1)%nat -> (Z.to_nat i <= length off2)%nat ->
  (LegionStuff.offsetMismatch i off1 off2 = false
   <-> firstn (Z.to_nat i) off1 = firstn (Z.to_nat i) off2) /\
  (i <= 0 -> LegionStuff.offsetMismatch i off1 off2 = false).
Proof.
  unfold LegionStuff.offsetMismatch. intros H1 H2. split.
  - revert off1 off2 H1 H2.
    induction (Z.to_nat i) as [|n IH]; intros off1 off2 H1 H2; simpl.
    + split; reflexivity.
    + destruct off1 as [|a off1]; [simpl in H1; lia|].
      destruct off2 as [|b off2]; [simpl in H2; lia|].
      simpl in *. destruct (Z.eqb_spec a b) as [-> | Hne]; simpl.
      * rewrite IH by lia. split; [intros ->; reflexivity|].
        intros E. now injection E.
      * split; [discriminate|]. intros E. injection E as E _. contradiction.
  - intros Hi. replace (Z.to_nat i) with 0%nat by lia. reflexivity.
Qed.

(** X10 on offsets that differ past the compared prefix. *)
Lemma offsetMismatch_spec_witness :
  ((Z.to_nat 2 <= length [8; 80; 1])%nat /\
   (Z.to_nat 2 <= length [8; 80; 2])%nat) /\
  (LegionStuff.offsetMismatch 2 [8; 80; 1] [8; 80; 2] = false
   <-> firstn (Z.to_nat 2) [8; 80; 1] = firstn (Z.to_nat 2) [8; 80; 2]) /\
  (2 <= 0 -> LegionStuff.offsetMismatch 2 [8; 80; 1] [8; 80; 2] = false).
Proof.
  assert (H1 : (Z.to_nat 2 <= length [8; 80; 1])%nat) by (simpl; lia).
  assert (H2 : (Z.to_nat 2 <= length [8; 80; 2])%nat) by (simpl; lia).
  split; [split; assumption|].
  exact (offsetMismatch_spec 2 [8; 80; 1] [8; 80; 2] H1 H2).
Defined.

(* ================================================================= *)
(** ** Array2D *)

(** X11.  For an [Array2D] over [mNRows * mNCols] elements (a product
    that fits an [int]), [operator()(row, col)] with [row] and [col]
    inside the shape addresses an element inside the array, two
    different pairs never address the same element, the row pointer of
    [operator()(row)] advanced by [col] addresses that element too, and
    an element written through [operator()] is read back at its own pair
    while every other pair keeps its value. *)
Theorem array2d_access (A : Type) (d : A) (a : Array2D.t A)
  (row col row' col' : Z) (v : A) :
  Array2D.mNRows a * Array2D.mNCols a <= INT_MAX ->
  Z.of_nat (length (Array2D.mData a))
  = Array2D.mNRows a * Array2D.mNCols a ->
  0 <= row < Array2D.mNRows a -> 0 <= col < Array2D.mNCols a ->
  0 <= row' < Array2D.mNRows a -> 0 <= col' < Array2D.mNCols a ->
  0 <= Array2D.index a row col < Z.of_nat (length (Array2D.mData a)) /\
  (Array2D.index a row col = Array2D.index a row' col'
   -> row = row' /\ col = col') /\
  Array2D.row_offset a row + col = Array2D.index a row col /\
  Array2D.get d (Array2D.set a row col v) row' col'
  = if (row =? row') && (col =? col') then v
    else Array2D.get d a row' col'.
Proof.
  intros _ Hlen Hr Hc Hr' Hc'.
  assert (Hinj : Array2D.index a row col = Array2D.index a row' col'
                 -> row = row' /\ col = col').
  { unfold Array2D.index. intros E.
    assert (row = row') by nia. subst. split; [reflexivity | lia]. }
  assert (Hin : 0 <= Array2D.index a row col
                < Z.of_nat (length (Array2D.mData a))).
  { rewrite Hlen. unfold Array2D.index. nia. }
  split; [exact Hin|]. split; [exact Hinj|]. split; [reflexivity|].
  unfold Array2D.get, Array2D.set. cbn [Array2D.mData Array2D.mNCols].
  change (Array2D.index _ row' col') with (Array2D.index a row' col').
  change (Array2D.index _ row col) with (Array2D.index a row col).
  destruct ((row =? row') && (col =? col')) eqn:E.
  - apply andb_true_iff in E. destruct E as [E1 E2].
    apply Z.eqb_eq in E1, E2. subst. apply nth_store_same. lia.
  - apply nth_store_other. intros Heq.
    assert (Hidx : Array2D.index a row' col' = Array2D.index a row col).
    { assert (0 <= Array2D.index a row' col') by (unfold Array2D.index; nia).
      lia. }
    symmetry in Hidx. destruct (Hinj Hidx) as [-> ->].
    rewrite !Z.eqb_refl in E. discriminate.
Qed.

(** X11 on a 2 x 3 array. *)
Lemma array2d_access_witness :
  let a := Array2D.mk 2 3 [10; 11; 12; 20; 21; 22] in
  0 <= Array2D.index a 1 2 < Z.of_nat (length (Array2D.mData a)) /\
  (Array2D.index a 1 2 = Array2D.index a 0 1 -> 1 = 0 /\ 2 = 1) /\
  Array2D.row_offset a 1 + 2 = Array2D.index a 1 2 /\
  Array2D.get 0 (Array2D.set a 1 2 7) 0 1
  = if (1 =? 0) && (2 =? 1) then 7 else Array2D.get 0 a 0 1.
Proof.
  intros a.
  apply (array2d_access Z 0 a 1 2 0 1 7);
    try (unfold INT_MAX; simpl; lia); reflexivity.
Defined.

(* ================================================================= *)
(** ** Allocation, launch domains and local indices *)

Lemma Point1_small v : - Int.two63 <= v < Int.two63 ->
  Point1 (Int.to_size_t v) = v.
Proof.
  intros Hv. unfold Point1. rewrite to_int64_to_size_t.
  now apply to_int64_small.
Qed.

(** X12.  The rectangle [mAllocate] builds for a length [len] holds
    [len] elements when [len] is positive and is empty otherwise (for
    [len = 0] the bound [len - 1] wraps to the largest [size_t], which as
    a coordinate is -1); so a [LogicalItem] instantiated from the
    allocated region, and an [Item] mapped on it, report the allocated
    length exactly when it is not negative.  [allocate(name)] makes the
    one-element rectangle [0 .. 0]. *)
Theorem mAllocate_volume (len sizeofT : Z) (raw : Item.RawRect) :
  - Int.two63 < len < Int.two63 ->
  let it := LogicalItem.mAllocate len in
  LogicalItem.mBounds it = mkRect 0 (len - 1) /\
  volume (LogicalItem.mBounds it) = Z.max 0 len /\
  LogicalItem.mLength (LogicalItem.of_region (LogicalItem.mBounds it))
  = Z.max 0 len /\
  Item.mLength (Item.Item sizeofT (LogicalItem.mBounds it) raw) = Z.max 0 len /\
  (0 <= len -> LogicalItem.of_region (LogicalItem.mBounds it) = it) /\
  LogicalItem.mBounds LogicalItem.allocate = mkRect 0 0.
Proof.
  intros Hlen. unfold LogicalItem.mAllocate. simpl.
  assert (Hp : Point1 (Int.to_size_t (len - 1)) = len - 1)
    by (apply Point1_small; unfold Int.two63 in *; lia).
  rewrite Hp.
  assert (Hvol : volume (mkRect 0 (len - 1)) = Z.max 0 len).
  { unfold volume. simpl. destruct (Z.ltb_spec (len - 1) 0); lia. }
  split; [reflexivity|]. split; [exact Hvol|].
  unfold LogicalItem.of_region. simpl. split; [exact Hvol|].
  split; [exact Hvol|]. split; [|reflexivity].
  intros Hnn. rewrite Hvol. f_equal. lia.
Qed.

(** X12 for an array of 8 elements. *)
Lemma mAllocate_volume_witness :
  - Int.two63 < 8 < Int.two63 /\
  volume (LogicalItem.mBounds (LogicalItem.mAllocate 8)) = Z.max 0 8 /\
  LogicalItem.of_region (LogicalItem.mBounds (LogicalItem.mAllocate 8))
  = LogicalItem.mAllocate 8.
Proof.
  assert (Hb : - Int.two63 < 8 < Int.two63) by (unfold Int.two63; lia).
  split; [exact Hb|].
  pose proof (mAllocate_volume 8 8 (Item.mkRaw 4096 (mkRect 0 7) [8]) Hb)
    as Hall.
  cbv zeta in Hall.
  split; [exact (proj1 (proj2 Hall))|].
  exact (proj1 (proj2 (proj2 (proj2 (proj2 Hall)))) ltac:(lia)).
Defined.

Section PartitionMore.
Import LogicalArray.

Lemma colorBounds_volume nParts :
  0 <= nParts < Int.two63 -> volume (colorBounds nParts) = nParts.
Proof.
  intros Hn. unfold colorBounds.
  rewrite Point1_small by (unfold Int.two63 in *; lia).
  unfold Point1. rewrite to_int64_small by (unfold Int.two63; lia).
  unfold volume. simpl. destruct (Z.ltb_spec (nParts - 1) 0); lia.
Qed.

(** X13.  The two overloads agree: for a part count dividing the
    length, [partition(nParts)] builds the coloring that
    [partition(partLens)] builds from [nParts] lengths all equal to
    [length/nParts]; and the launch domain either overload stores has
    exactly one point per color, an empty [partLens] giving the empty
    domain [0 .. -1]. *)
Theorem partition_overloads_agree (mLength nParts : Z) (partLens : list Z) :
  0 < nParts < Int.two63 -> 0 <= mLength < Int.two63 ->
  mLength mod nParts = 0 ->
  Z.of_nat (length partLens) < Int.two63 ->
  partition mLength nParts
  = Some (partition_lens (repeat (mLength / nParts) (Z.to_nat nParts))) /\
  volume (colorBounds nParts)
  = Z.of_nat (length (partition_lens
                        (repeat (mLength / nParts) (Z.to_nat nParts)))) /\
  volume (colorBounds (Z.of_nat (length partLens)))
  = Z.of_nat (length (partition_lens partLens)) /\
  colorBounds (Z.of_nat (length (@nil Z))) = mkRect 0 (-1).
Proof.
  intros HnP HmL Hdiv Hlens.
  split.
  - apply partition_even_as_lens; [unfold Int.two63, Int.two64 in *; lia | | ];
      assumption.
  - unfold partition_lens. rewrite !length_lens_loop, repeat_length.
    rewrite !colorBounds_volume by lia.
    rewrite Z2Nat.id by lia. repeat split.
Qed.

(** X13 at 12 elements in 3 parts. *)
Lemma partition_overloads_agree_witness :
  (0 < 3 < Int.two63 /\ 0 <= 12 < Int.two63 /\ 12 mod 3 = 0) /\
  partition 12 3 = Some (partition_lens (repeat (12 / 3) (Z.to_nat 3))) /\
  volume (colorBounds 3)
  = Z.of_nat (length (partition_lens (repeat (12 / 3) (Z.to_nat 3)))).
Proof.
  assert (H1 : 0 < 3 < Int.two63) by (unfold Int.two63; lia).
  assert (H2 : 0 <= 12 < Int.two63) by (unfold Int.two63; lia).
  assert (H3 : 12 mod 3 = 0) by reflexivity.
  assert (H4 : Z.of_nat (length [4; 4; 4]) < Int.two63)
    by (unfold Int.two63; simpl; lia).
  split; [exact (conj H1 (conj H2 H3))|].
  pose proof (partition_overloads_agree 12 3 [4; 4; 4] H1 H2 H3 H4) as Hall.
  split; [exact (proj1 Hall) | exact (proj1 (proj2 Hall))].
Defined.

(** X14.  With non-negative lengths the sub-region of color [c] holds
    exactly [partLens[c]] elements, a zero length giving an empty
    rectangle whose upper bound is one below its lower bound; the first
    sub-region starts at index 0 and the last one ends at
    [sum(partLens) - 1]. *)
Theorem partition_lens_volumes (partLens : list Z) (c : nat) :
  Forall (fun l => 0 <= l) partLens -> total partLens < Int.two63 ->
  (c < length partLens)%nat ->
  let rect := nth c (partition_lens partLens) (mkRect 0 (-1)) in
  volume rect = nth c partLens 0 /\
  hi rect = lo rect + nth c partLens 0 - 1 /\
  lo (nth 0 (partition_lens partLens) (mkRect 0 (-1))) = 0 /\
  hi (nth (length partLens - 1) (partition_lens partLens) (mkRect 0 (-1)))
  = total partLens - 1.
Proof.
  intros Hnn Hfit Hc rect. subst rect. unfold partition_lens.
  assert (Hstep : forall l k, (k < length l)%nat ->
            prefix_sum l (S k) = prefix_sum l k + nth k l 0).
  { induction l as [|x l IH]; intros k Hk; [simpl in Hk; lia|].
    destruct k as [|k].
    - unfold prefix_sum. simpl. lia.
    - unfold prefix_sum in *.
      change (firstn (S (S k)) (x :: l)) with (x :: firstn (S k) l).
      change (firstn (S k) (x :: l)) with (x :: firstn k l).
      cbn [fold_right nth]. rewrite IH by (simpl in Hk; lia). lia. }
  assert (Hall : prefix_sum partLens (length partLens) = total partLens).
  { unfold prefix_sum, total. now rewrite firstn_all. }
  assert (Hc_nn : 0 <= nth c partLens 0).
  { rewrite Forall_forall in Hnn. apply Hnn. now apply nth_In. }
  rewrite !lens_loop_nth by (auto; lia).
  rewrite (Hstep partLens c Hc).
  unfold volume. cbn [lo hi].
  split.
  { match goal with
    | |- context [?u <? ?w] => destruct (Z.ltb_spec u w)
    end; lia. }
  split; [lia|]. split; [reflexivity|].
  replace (S (length partLens - 1)) with (length partLens) by lia.
  rewrite Hall. lia.
Qed.

(** X14 at the lengths 3, 0, 5: the empty middle sub-region. *)
Lemma partition_lens_volumes_witness :
  let rect := nth 1 (partition_lens [3; 0; 5]) (mkRect 0 (-1)) in
  rect = mkRect 3 2 /\
  volume rect = nth 1 [3; 0; 5] 0 /\
  hi rect = lo rect + nth 1 [3; 0; 5] 0 - 1.
Proof.
  intros rect. split; [reflexivity|].
  assert (Hnn : Forall (fun l => 0 <= l) [3; 0; 5]) by (repeat constructor; lia).
  assert (Hfit : total [3; 0; 5] < Int.two63) by (unfold Int.two63; simpl; lia).
  assert (Hc : (1 < length [3; 0; 5])%nat) by (simpl; lia).
  pose proof (partition_lens_volumes [3; 0; 5] 1 Hnn Hfit Hc) as Hall.
  cbv zeta in Hall.
  split; [exact (proj1 Hall) | exact (proj1 (proj2 Hall))].
Defined.

(** X15.  Global and local indices after an even partition into blocks
    of [inc = length/nParts > 0] elements: the global index [g] belongs
    to color [g / inc] at the local index [g mod inc], which is inside
    the [Item] mapped on that sub-region, and
    [getGlobalIdxZero() + local index] gives [g] back; no other color and
    local index give [g]. *)
Theorem global_local_index (mLength nParts sizeofT g : Z)
  (raw : Item.RawRect) :
  0 < nParts < Int.two63 -> 0 < mLength < Int.two63 ->
  mLength mod nParts = 0 -> 0 <= g < mLength ->
  let inc := mLength / nParts in
  exists rects,
    partition mLength nParts = Some rects /\
    let sub c := nth c rects (mkRect 0 (-1)) in
    let c := Z.to_nat (g / inc) in
    (c < Z.to_nat nParts)%nat /\
    0 <= g mod inc < Item.mLength (Item.Item sizeofT (sub c) raw) /\
    getGlobalIdxZero (sub c) + g mod inc = g /\
    forall c' i',
      (c' < Z.to_nat nParts)%nat ->
      0 <= i' < Item.mLength (Item.Item sizeofT (sub c') raw) ->
      getGlobalIdxZero (sub c') + i' = g ->
      c' = c /\ i' = g mod inc.
Proof.
  intros HnP HmL Hdiv Hg inc.
  set (n := Z.to_nat nParts).
  assert (Hmul : mLength = nParts * inc).
  { unfold inc. pose proof (Z.div_mod mLength nParts ltac:(lia)). lia. }
  assert (Hinc : 0 < inc) by nia.
  assert (Hnn : Forall (fun l => 0 <= l) (repeat inc n)).
  { apply Forall_forall. intros l Hl. apply repeat_spec in Hl. lia. }
  assert (Htot : total (repeat inc n) = mLength).
  { rewrite total_repeat. unfold n. rewrite Z2Nat.id by lia. lia. }
  assert (Hnth : forall c, (c < n)%nat ->
            nth c (partition_lens (repeat inc n)) (mkRect 0 (-1))
            = mkRect (Z.of_nat c * inc) (Z.of_nat (S c) * inc - 1)).
  { intros c Hc. unfold partition_lens.
    rewrite lens_loop_nth by (auto; try lia; rewrite repeat_length; exact Hc).
    rewrite !prefix_sum_repeat by lia. f_equal. }
  assert (Hvol : forall c, (c < n)%nat ->
            volume (nth c (partition_lens (repeat inc n)) (mkRect 0 (-1)))
            = inc).
  { intros c Hc. rewrite Hnth by exact Hc. unfold volume. cbn [lo hi].
    rewrite Nat2Z.inj_succ.
    match goal with
    | |- context [?u <? ?w] => destruct (Z.ltb_spec u w)
    end; nia. }
  exists (partition_lens (repeat inc n)).
  split.
  { apply partition_even_as_lens;
      [unfold Int.two63, Int.two64 in *; lia | lia | exact Hdiv]. }
  cbv zeta.
  pose proof (Z.div_mod g inc ltac:(lia)) as Hdm.
  pose proof (Z.mod_pos_bound g inc Hinc) as Hmod.
  assert (Hq : 0 <= g / inc < nParts).
  { split; [apply Z.div_pos; lia|].
    apply Z.div_lt_upper_bound; [lia|]. nia. }
  assert (Hc : (Z.to_nat (g / inc) < n)%nat) by (unfold n; lia).
  split; [exact Hc|].
  unfold getGlobalIdxZero.
  change (Item.mLength (Item.Item sizeofT ?r raw)) with (volume r).
  rewrite Hvol by exact Hc. rewrite Hnth by exact Hc. simpl lo.
  rewrite Z2Nat.id by lia.
  split; [exact Hmod|]. split; [lia|].
  intros c' i' Hc' Hi' Hsum.
  change (Item.mLength (Item.Item sizeofT ?r raw)) with (volume r) in Hi'.
  rewrite Hvol in Hi' by exact Hc'. rewrite Hnth in Hsum by exact Hc'.
  simpl lo in Hsum.
  assert (Hcq : Z.of_nat c' = g / inc).
  { apply (Z.div_unique g inc (Z.of_nat c') i'); lia. }
  split; [lia|].
  rewrite <- Hcq in Hdm. nia.
Qed.

(** X15 at 12 elements in 3 parts: global index 9 is local index 1 of
    color 2. *)
Lemma global_local_index_witness :
  exists rects,
    partition 12 3 = Some rects /\
    (Z.to_nat (9 / (12 / 3)) < Z.to_nat 3)%nat /\
    getGlobalIdxZero (nth (Z.to_nat (9 / (12 / 3))) rects (mkRect 0 (-1)))
    + 9 mod (12 / 3) = 9.
Proof.
  assert (H1 : 0 < 3 < Int.two63) by (unfold Int.two63; lia).
  assert (H2 : 0 < 12 < Int.two63) by (unfold Int.two63; lia).
  destruct (global_local_index 12 3 8 9 (Item.mkRaw 4096 (mkRect 8 11) [8])
              H1 H2 eq_refl ltac:(lia))
    as (rects & Hp & Hc & _ & Hsum & _).
  exists rects. split; [exact Hp|]. split; [exact Hc | exact Hsum].
Defined.

End PartitionMore.
